(** * process_max_batch: the client's queue, quota window and drain loop

    A shallow embedding of [client/main.go]: the handler that enqueues
    items ([HandleProcess]), one call of the drain function
    ([ProcessQueue]) and the goroutine started by [RunProcess] that calls
    it in a loop, together with the mock server's admission check.

    Everything the Go code obtains from outside (the wall clock, the HTTP
    exchange with the server, the requests of concurrent producers) is an
    explicit input of the function that consumes it. *)

From Stdlib Require Import ZArith Lia.
From stdpp Require Import gmap strings list fin_maps.

Local Open Scope Z_scope.

(** ** Machine integers

    Go's [int] and [int64] are taken to be 64 bits wide (the amd64 and
    arm64 targets); arithmetic wraps around in two's complement. *)
Module Int64.

Definition modulus : Z := 2 ^ 64.
Definition half : Z := 2 ^ 63.

Definition wrap (z : Z) : Z := (z + half) mod modulus - half.

Definition add (a b : Z) : Z := wrap (a + b).
Definition sub (a b : Z) : Z := wrap (a - b).

Definition in_range (z : Z) : Prop := - half <= z < half.

End Int64.

(** ** Wire types *)

(** [LimitsResponse]: [Number] is a [uint64], [Duration] a
    [time.Duration], that is an [int64] count of nanoseconds. *)
Record LimitsResponse := mkLimits { Number : Z; Duration : Z }.

Record ProcessResponse := mkResponse { Success : bool; Error : string }.

(** The [error] values [ProcessQueue] can return, one per [return err]
    of the source; [errors_New] is the value built at line 264. *)
Inductive error :=
| MarshalErr
| NewRequestErr
| DoErr
| ReadAllErr
| UnmarshalErr
| errors_New (msg : string).

(** What happens to one submission, as seen by the client: which of the
    fallible calls between lines 228 and 259 fails, or the decoded
    [ProcessResponse]. *)
Inductive Exchange :=
| MarshalFails
| NewRequestFails
| DoFails
| ReadAllFails
| UnmarshalFails
| Responds (process : ProcessResponse).

Section Client.

(** [Item] is [struct{}] in the source and is never inspected; the
    model is parametric in it, so that the position of an item in the
    queue can be observed. *)
Context {Item : Type}.

Definition Batch := list Item.

(** The state [ProcessQueue] works on: the package variables
    [Queue.Batch] and [TotalProcessed], and the map [processedItems]
    that [RunProcess] allocates and passes by reference. *)
Record State := mkState {
  Queue : Batch;
  TotalProcessed : Z;
  processedItems : gmap Z Z
}.

(** *** HandleProcess *)

(** The outcome of [c.ShouldBindJSON(&data)]. *)
Inductive Binding :=
| BindError (msg : string)
| Bound (Data : Batch).

Record Reply := mkReply { Status : Z; Body : ProcessResponse }.

Definition StatusOK : Z := 200.
Definition StatusBadRequest : Z := 400.

Definition HandleProcess (req : Binding) (st : State) : Reply * State :=
  match req with
  | BindError msg => (mkReply StatusBadRequest (mkResponse false msg), st)
  | Bound Data =>
      if Z.of_nat (length Data) =? 0 then
        (mkReply StatusBadRequest (mkResponse false "No items provided"), st)
      else
        (mkReply StatusOK (mkResponse true EmptyString),
         mkState (Queue st ++ Data) (TotalProcessed st) (processedItems st))
  end.

(** *** ProcessQueue *)

(** The inputs of one call.
    - [seen ts] is the value of [time.Now().UnixNano()] read at line
      212 when the [range] loop visits the entry keyed [ts] (Go visits
      the entries in an unspecified order and reads the clock at each);
    - [early] are the items producers append between the test of line
      205 and the [Lock] of line 223;
    - [stamp] is the clock read at line 238;
    - [late] are the items producers append after the [Unlock] of line
      233 and before the [Lock] of line 267;
    - [exchange batch] is the fate of the request carrying [batch]. *)
Record Env := mkEnv {
  seen : Z → Z;
  early : Batch;
  stamp : Z;
  late : Batch;
  exchange : Batch → Exchange
}.

(** What one call did, for an observer: the returned error, the batch
    handed to [client.Do] (if that line was reached), the items cut off
    the head of the queue, the items producers appended during the
    call, and the entry written into the map at line 238 (if that line
    was reached). *)
Record Report := mkReport {
  err : option error;
  sent : option Batch;
  removed : Batch;
  arrived : Batch;
  wrote : option (Z * Z)
}.

Definition nothing : Report := mkReport None None [] [] None.

(** Body of the loop of lines 211-217, on the pair (map, limit). *)
Definition range_body (limits : LimitsResponse) (now : Z → Z)
    (timestamp item : Z) (acc : gmap Z Z * Z) : gmap Z Z * Z :=
  if Int64.add timestamp (Duration limits) <? now timestamp
  then (delete timestamp acc.1, acc.2)
  else (acc.1, Int64.sub acc.2 item).

(** Lines 209-217: [limit := int(limits.Number)] and the loop. *)
Definition window (limits : LimitsResponse) (now : Z → Z)
    (m : gmap Z Z) : gmap Z Z * Z :=
  map_fold (range_body limits now) (m, Int64.wrap (Number limits)) m.

Definition ProcessQueue (limits : LimitsResponse) (env : Env)
    (st : State) : Report * State :=
  if Z.of_nat (length (Queue st)) =? 0 then (nothing, st)
  else
    let w := window limits (seen env) (processedItems st) in
    let limit := w.2 in
    if limit <=? 0 then
      (nothing, mkState (Queue st) (TotalProcessed st) w.1)
    else
      let locked := Queue st ++ early env in
      let limit :=
        if Z.of_nat (length locked) <? limit
        then Z.of_nat (length locked) else limit in
      let batch := take (Z.to_nat limit) locked in
      let incoming := early env ++ late env in
      let unlocked := locked ++ late env in
      let recorded := <[stamp env := limit]> w.1 in
      let entry := Some (stamp env, limit) in
      let fails e s m written :=
        (mkReport (Some e) s [] incoming written,
         mkState unlocked (TotalProcessed st) m) in
      match exchange env batch with
      | MarshalFails => fails MarshalErr None w.1 None
      | NewRequestFails => fails NewRequestErr None recorded entry
      | DoFails => fails DoErr (Some batch) recorded entry
      | ReadAllFails => fails ReadAllErr (Some batch) recorded entry
      | UnmarshalFails => fails UnmarshalErr (Some batch) recorded entry
      | Responds process =>
          if negb (Success process) then
            fails (errors_New
                     ("Error response from server: " +:+ Error process))
                  (Some batch) recorded entry
          else
            (mkReport None (Some batch)
               (take (Z.to_nat limit) unlocked) incoming entry,
             mkState
               (if Z.of_nat (length unlocked) <=? limit then []
                else drop (Z.to_nat limit) unlocked)
               (Int64.add (TotalProcessed st) limit)
               recorded)
      end.

(** *** The goroutine of RunProcess *)

(** [mem] is the state shared with [ProcessQueue]; [errorsCount] is
    the closure's counter; [returned] records that the goroutine has
    executed one of its two [return]s. *)
Record Loop := mkLoop {
  mem : State;
  errorsCount : Z;
  returned : bool
}.

Definition threshold : Z := 10.

(** The [default] branch of the [select], lines 187-197. *)
Definition default_case (limits : LimitsResponse) (env : Env)
    (g : Loop) : Report * Loop :=
  let '(r, st) := ProcessQueue limits env (mem g) in
  let errorsCount :=
    match err r with
    | Some _ => Int64.add (errorsCount g) 1
    | None => 0
    end in
  (r, mkLoop st errorsCount (threshold <=? errorsCount)).

(** What can happen next in the process.
    - [Request req]: a producer's call of [HandleProcess] completes
      while no call of [ProcessQueue] is between its two critical
      sections;
    - [Stop]: [HandleStop] hands a value over [Channel], the [select]
      takes its first case and the goroutine returns;
    - [Tick env]: the [select] takes its [default] case; once the
      goroutine has returned there is no loop left to take it, and the
      event does nothing. *)
Inductive Event :=
| Request (req : Binding)
| Stop
| Tick (env : Env).

Definition step (limits : LimitsResponse) (ev : Event) (g : Loop)
    : Report * Loop :=
  match ev with
  | Request req =>
      let '(reply, st) := HandleProcess req (mem g) in
      (mkReport None None []
         (match req with
          | Bound Data => if Success (Body reply) then Data else []
          | BindError _ => []
          end) None,
       mkLoop st (errorsCount g) (returned g))
  | Stop =>
      (nothing, mkLoop (mem g) (errorsCount g) true)
  | Tick env =>
      if returned g then (nothing, g) else default_case limits env g
  end.

Fixpoint run (limits : LimitsResponse) (evs : list Event) (g : Loop)
    : list Report * Loop :=
  match evs with
  | [] => ([], g)
  | ev :: evs =>
      let '(r, g1) := step limits ev g in
      let '(rs, g2) := run limits evs g1 in
      (r :: rs, g2)
  end.

(** The process as [main] leaves it once [RunProcess] has started the
    goroutine: empty queue, zero counters, empty map. *)
Definition start : Loop := mkLoop (mkState [] 0 ∅) 0 false.

Definition reachable (limits : LimitsResponse) (g : Loop) : Prop :=
  ∃ evs, (run limits evs start).2 = g.

End Client.

(** ** The mock server

    [Process] of [mock_server/main.go] blocks a batch longer than
    [BatchLengthLimit]; [HandleProcess] turns that into the JSON body the
    client decodes. *)
Module MockServer.

Definition ErrBlocked : string := "blocked".

Definition Process {Item : Type} (BatchLengthLimit : Z) (batch : list Item)
    : option string :=
  if Int64.wrap BatchLengthLimit <? Z.of_nat (length batch)
  then Some ErrBlocked else None.

Definition HandleProcess {Item : Type} (BatchLengthLimit : Z)
    (batch : list Item) : Exchange :=
  match Process BatchLengthLimit batch with
  | Some e => Responds (mkResponse false e)
  | None => Responds (mkResponse true EmptyString)
  end.

End MockServer.

(** ** Quantities the specification speaks about *)

(** Sum of the counts held in a window map. *)
Definition total (m : gmap Z Z) : Z := map_fold (λ _ c acc, c + acc) 0 m.

(** The entries the loop of lines 211-217 leaves in the map: those for
    which the test of line 212 is false. *)
Definition surviving (limits : LimitsResponse) (now : Z → Z)
    (m : gmap Z Z) : gmap Z Z :=
  filter (λ e, ¬ Int64.add e.1 (Duration limits) < now e.1) m.

(** The entries stamped in the interval (t - D, t]. *)
Definition within (D t : Z) (m : gmap Z Z) : gmap Z Z :=
  filter (λ e, t - D < e.1 ≤ t) m.

(** The specification's quota tracker, in the specification's words: an
    entry has aged out at [now] when [timestamp + D < now];
    [RemainingCapacity] drops the aged-out entries, sums the counts of
    the others and returns the quota minus that sum, clamped at zero.
    [now ts] is the clock as read for the entry stamped [ts]. *)
Definition unexpired (D : Z) (now : Z → Z) (m : gmap Z Z) : gmap Z Z :=
  filter (λ e, ¬ e.1 + D < now e.1) m.

Definition RemainingCapacity (limits : LimitsResponse) (now : Z → Z)
    (m : gmap Z Z) : Z :=
  Z.max 0 (Number limits - total (unexpired (Duration limits) now m)).

(** No stamp in the map is so late that adding the window to it leaves
    the range of [int64]. *)
Definition stamps_fit (D : Z) (m : gmap Z Z) : Prop :=
  map_Forall (λ ts _, Int64.in_range (ts + D)) m.

(** What the loop maintains about the map: every count is positive and
    the counts add up to at most [int(limits.Number)]. *)
Definition tracker_ok (limits : LimitsResponse) (m : gmap Z Z) : Prop :=
  map_Forall (λ _ c, 0 < c) m ∧ total m ≤ Z.max 0 (Int64.wrap (Number limits)).

(** The items counted by a list of entries, and by those of them that
    are stamped in (t - D, t]. *)
Definition sum_counts (h : list (Z * Z)) : Z := foldr (λ e acc, e.2 + acc) 0 h.

Definition counted (D t : Z) (h : list (Z * Z)) : Z :=
  sum_counts (filter (λ e, t - D < e.1 ≤ t) h).

(** How the entries [h] written so far relate to the map [m] when the
    clock stands at [T]: no entry is stamped later than [T], no two
    carry the same stamp, an entry is still in the map unless its
    window has closed, and no window holds more than the quota. *)
Definition history_ok (limits : LimitsResponse) (T : Z)
    (h : list (Z * Z)) (m : gmap Z Z) : Prop :=
  tracker_ok limits m ∧
  (∀ s n, (s, n) ∈ h → s ≤ T ∧ Int64.in_range (s + Duration limits)) ∧
  NoDup h.*1 ∧
  (∀ s n, (s, n) ∈ h → m !! s = Some n ∨ s + Duration limits < T) ∧
  (∀ t, counted (Duration limits) t h ≤ Number limits).

Section Observations.

Context {Item : Type}.

(** The reports of the iterations of the loop among the reports of a
    run: those at the positions of the [Tick] events. *)
Fixpoint iterations (evs : list (@Event Item)) (rs : list (@Report Item))
    : list (@Report Item) :=
  match evs, rs with
  | Tick _ :: evs, r :: rs => r :: iterations evs rs
  | _ :: evs, _ :: rs => iterations evs rs
  | _, _ => []
  end.

(** The number of iterations that returned an error since the last one
    that returned none: what the code counts. *)
Definition errors_in_a_row (rs : list (@Report Item)) : Z :=
  foldl (λ n r, match err r with Some _ => n + 1 | None => 0 end) 0 rs.

(** The specification's error streak, in its own words: the number of
    failed submission attempts since the last successful submission;
    an iteration that attempts nothing leaves it alone. *)
Definition failures_since_success (rs : list (@Report Item)) : Z :=
  foldl (λ n r,
           match err r, sent r with
           | Some _, _ => n + 1
           | None, Some _ => 0
           | None, None => n
           end) 0 rs.

(** Everything producers enqueued and everything the loop cut off the
    queue during a run, in order. *)
Definition enqueued (rs : list (@Report Item)) : list Item :=
  concat (arrived <$> rs).

Definition dequeued (rs : list (@Report Item)) : list Item :=
  concat (removed <$> rs).

(** A submission fails: one of the calls fails or the server answers
    with [Success] false. *)
Definition failing (x : Exchange) : Prop :=
  match x with
  | Responds process => Success process = false
  | _ => True
  end.

(** Submissions fail and nobody enqueues meanwhile. *)
Definition quiet_failure (env : @Env Item) : Prop :=
  early env = [] ∧ late env = [] ∧ ∀ batch, failing (exchange env batch).

(** The entries written at line 238 during a run, in order. *)
Definition written (rs : list (@Report Item)) : list (Z * Z) :=
  omap wrote rs.

(** The clock along a run, started at [T]: in every iteration the
    readings of line 212 are no later than the stamp of line 238, that
    stamp is later than the one of the iteration before, and the end of
    its window fits an [int64]. *)
Fixpoint timed (D T : Z) (evs : list (@Event Item)) : Prop :=
  match evs with
  | [] => True
  | Tick env :: evs =>
      T < stamp env ∧ (∀ ts, seen env ts ≤ stamp env) ∧
      Int64.in_range (stamp env + D) ∧ timed D (stamp env) evs
  | _ :: evs => timed D T evs
  end.

End Observations.

(** ** Concrete inputs

    The mock server's figures: a quota of 10 items per 15 seconds,
    [time.Duration] counting nanoseconds. Items are [struct{}]. *)
Module Sample.

Definition second : Z := 1000000000.

Definition limits : LimitsResponse := mkLimits 10 (15 * second).

Definition three : list unit := [(); (); ()].

Definition five : list unit := [(); (); (); (); ()].

(** An iteration at [t] seconds, during which nobody enqueues. *)
Definition at_second (t : Z) (x : list unit → Exchange) : @Env unit :=
  mkEnv (λ _, t * second) [] (t * second) [] x.

(** The server is unreachable: [client.Do] fails. *)
Definition down (t : Z) : @Event unit := Tick (at_second t (λ _, DoFails)).

(** The mock server answers. *)
Definition up (t : Z) : @Event unit :=
  Tick (at_second t (MockServer.HandleProcess 10)).

(** Three items are enqueued; four attempts fail within one window and
    use up the quota, a fifth iteration finds no capacity; the same
    again a window later; then two more failed attempts. *)
Definition stubborn : list (@Event unit) :=
  Request (Bound three) ::
  [down 1; down 2; down 3; down 4; down 5;
   down 21; down 22; down 23; down 24; down 25;
   down 41; down 42].

(** Three items are enqueued, four attempts fail, a fifth iteration
    finds no capacity. *)
Definition short : list (@Event unit) :=
  Request (Bound three) :: [down 1; down 2; down 3; down 4; down 5].

(** Ten failing iterations for a quota with room for all of them. *)
Definition ten_down : list (@Env unit) :=
  (λ t, at_second t (λ _, DoFails)) <$> [1; 2; 3; 4; 5; 6; 7; 8; 9; 10].

End Sample.

(** More concrete inputs, on the same figures. *)
Module More.

Definition queue25 : list unit := replicate 25 ().

Definition mock : list unit → Exchange := MockServer.HandleProcess 10.

(** Three iterations sixteen seconds apart, the mock server answering. *)
Definition drain : list (@Env unit) :=
  [Sample.at_second 16 mock; Sample.at_second 32 mock;
   Sample.at_second 48 mock].

(** Five items enqueued and two iterations against the mock server. *)
Definition served_run : list (@Event unit) :=
  [Request (Bound Sample.five); Sample.up 1; Sample.up 2].

(** A map with one entry of five items stamped at second 1. *)
Definition one_entry : gmap Z Z := {[1 * Sample.second := 5]}.

Definition busy : @State unit := mkState Sample.three 0 one_entry.

End More.

(** ** The other handlers and the start of the process *)

(** The mock server's side of the limits: [main] sets the two package
    variables, [GetLimits] returns them, [HandleGetLimits] puts them
    in the body the client decodes ([Number] from the first result,
    [Duration] from the second). *)
Module MockLimits.

Definition BatchLengthLimit : Z := 10.

Definition Duration : Z := 15 * 1000000000.

Definition GetLimits (BatchLengthLimit Duration : Z) : Z * Z :=
  (BatchLengthLimit, Duration).

Definition HandleGetLimits (BatchLengthLimit Duration : Z)
    : LimitsResponse :=
  let '(p, n) := GetLimits BatchLengthLimit Duration in
  mkLimits p n.

End MockLimits.

(** What becomes of the request for the limits that [RunProcess] makes,
    lines 148-175: one of the four fallible calls fails, or the body
    decodes to a [LimitsResponse]. *)
Inductive Fetch :=
| FetchNewRequestFails
| FetchDoFails
| FetchReadAllFails
| FetchUnmarshalFails
| Fetched (limits : LimitsResponse).

Section Process.

Context {Item : Type}.

(** [HandleTotalProcessed]: the status and the [TotalProcessed] field
    of the body. *)
Definition HandleTotalProcessed (st : @State Item) : Z * Z :=
  (StatusOK, TotalProcessed st).

(** [HandleStop] sends on the unbuffered [Channel] and answers once
    the value has been received. The only receiver is the [select] of
    the goroutine: while it is alive the send completes, the goroutine
    returns and the handler answers 200; when there is no goroutine to
    receive, the send blocks for good and the handler never answers
    ([None]). *)
Definition HandleStop (g : @Loop Item) : option (Z * @Loop Item) :=
  if returned g then None
  else Some (StatusOK, mkLoop (mem g) (errorsCount g) true).

(** The process without a goroutine: the package variables at their
    zero values and nobody to run the loop. *)
Definition no_goroutine : @Loop Item := mkLoop (mkState [] 0 ∅) 0 true.

(** [RunProcess]: every failure on the way to the limits returns before
    the [go] statement; otherwise the goroutine starts on the limits
    with an empty map and a zero counter. *)
Definition RunProcess (f : Fetch) : option LimitsResponse * @Loop Item :=
  match f with
  | Fetched limits => (Some limits, start)
  | _ => (None, no_goroutine)
  end.

(** Every submission of a run is answered by the mock server set to
    the limit [N]. *)
Definition served (N : Z) (evs : list (@Event Item)) : Prop :=
  Forall (λ ev, match ev with
                | Tick env => exchange env = MockServer.HandleProcess N
                | _ => True
                end) evs.

(** Iterations that find a fresh window and a willing server: nobody
    enqueues meanwhile, an entry has aged out when the loop looks at
    it, whatever its stamp (an [int64]) not later than [T], and the
    iteration's own stamp is an [int64] later than [T]. *)
Fixpoint spaced (limits : LimitsResponse) (T : Z)
    (envs : list (@Env Item)) : Prop :=
  match envs with
  | [] => True
  | env :: envs =>
      early env = [] ∧ late env = [] ∧
      exchange env = MockServer.HandleProcess (Number limits) ∧
      (∀ ts, Int64.in_range ts → ts ≤ T →
             Int64.add ts (Duration limits) < seen env ts) ∧
      T < stamp env ∧ Int64.in_range (stamp env) ∧
      spaced limits (stamp env) envs
  end.

(** A run within one window that opens at [T0]: the stamps of the
    iterations grow from [T] on, no entry stamped between [T0] and the
    last stamp has aged out when an iteration looks at it, and
    [json.Marshal] does not fail. *)
Fixpoint one_window (limits : LimitsResponse) (T0 T : Z)
    (evs : list (@Event Item)) : Prop :=
  match evs with
  | [] => True
  | Tick env :: evs =>
      T < stamp env ∧
      (∀ ts, T0 ≤ ts ≤ T →
             ¬ Int64.add ts (Duration limits) < seen env ts) ∧
      (∀ batch, exchange env batch ≠ MarshalFails) ∧
      one_window limits T0 (stamp env) evs
  | _ :: evs => one_window limits T0 T evs
  end.

End Process.

(** ** Machine arithmetic *)

Lemma wrap_small z : Int64.in_range z → Int64.wrap z = z.
Proof.
  unfold Int64.in_range, Int64.wrap, Int64.half, Int64.modulus. intros H.
  rewrite Z.mod_small; lia.
Qed.

Lemma wrap_in_range z : Int64.in_range (Int64.wrap z).
Proof.
  unfold Int64.in_range, Int64.wrap, Int64.half, Int64.modulus.
  pose proof (Z.mod_pos_bound (z + 2 ^ 63) (2 ^ 64)). lia.
Qed.

Lemma wrap_idem z : Int64.wrap (Int64.wrap z) = Int64.wrap z.
Proof. apply wrap_small, wrap_in_range. Qed.

Lemma sub_wrap_l a b : Int64.sub (Int64.wrap a) b = Int64.wrap (a - b).
Proof.
  unfold Int64.sub, Int64.wrap. f_equal.
  replace ((a + Int64.half) mod Int64.modulus - Int64.half - b + Int64.half)
    with ((a + Int64.half) mod Int64.modulus + - b) by lia.
  rewrite Zplus_mod_idemp_l. f_equal. lia.
Qed.

Lemma wrap_le_nonneg z : 0 ≤ z → Int64.wrap z ≤ z.
Proof.
  unfold Int64.wrap, Int64.half, Int64.modulus. intros H.
  pose proof (Z.mod_le (z + 2 ^ 63) (2 ^ 64)). lia.
Qed.

(** ** Sums over the window map *)

Lemma total_empty : total ∅ = 0.
Proof. apply map_fold_empty. Qed.

Lemma total_insert_fresh (m : gmap Z Z) k c :
  m !! k = None → total (<[k:=c]> m) = c + total m.
Proof.
  intros H. unfold total. rewrite map_fold_insert_L; [done | | done].
  intros. lia.
Qed.

Lemma total_delete (m : gmap Z Z) k c :
  m !! k = Some c → total m = c + total (delete k m).
Proof.
  intros H. rewrite <- (insert_delete_id m k c) at 1 by done.
  apply total_insert_fresh, lookup_delete_eq.
Qed.

Lemma total_nonneg (m : gmap Z Z) :
  map_Forall (λ _ c, 0 < c) m → 0 ≤ total m.
Proof.
  induction m as [|k c m Hk IH] using map_ind; intros H.
  - by rewrite total_empty.
  - rewrite total_insert_fresh by done.
    apply map_Forall_insert in H as [Hc Hm]; [|done]. specialize (IH Hm). lia.
Qed.

Lemma total_zero_empty (m : gmap Z Z) :
  map_Forall (λ _ c, 0 < c) m → total m ≤ 0 → m = ∅.
Proof.
  destruct m as [|k c m Hk _] using map_ind; [done|]. intros H Hle.
  rewrite total_insert_fresh in Hle by done.
  apply map_Forall_insert in H as [Hc Hm]; [|done].
  apply total_nonneg in Hm. lia.
Qed.

Lemma total_filter_le (P : Z * Z → Prop) `{!∀ e, Decision (P e)}
    (m : gmap Z Z) :
  map_Forall (λ _ c, 0 < c) m → total (filter P m) ≤ total m.
Proof.
  induction m as [|k c m Hk IH] using map_ind; intros Hpos.
  - by rewrite map_filter_empty.
  - apply map_Forall_insert in Hpos as [Hc Hm]; [|done]. specialize (IH Hm).
    rewrite (total_insert_fresh m) by done.
    destruct (decide (P (k, c))).
    + rewrite map_filter_insert_True by done.
      rewrite total_insert_fresh; [lia|].
      by rewrite map_lookup_filter, Hk.
    + rewrite map_filter_insert_False by done.
      rewrite delete_id by done. lia.
Qed.

Lemma total_insert_le (m : gmap Z Z) k c :
  map_Forall (λ _ c, 0 < c) m → total (<[k:=c]> m) ≤ c + total m.
Proof.
  intros H. destruct (m !! k) as [c'|] eqn:Hk.
  - rewrite <- insert_delete_eq. rewrite total_insert_fresh
      by apply lookup_delete_eq.
    rewrite (total_delete m k c') by done.
    specialize (H k c' Hk). simpl in H. lia.
  - rewrite total_insert_fresh by done. lia.
Qed.

Lemma Forall_filter_pos (P : Z * Z → Prop) `{!∀ e, Decision (P e)}
    (m : gmap Z Z) :
  map_Forall (λ _ c, 0 < c) m → map_Forall (λ _ c, 0 < c) (filter P m).
Proof.
  intros Hpos k c Hk. apply map_lookup_filter_Some in Hk as [Hk _].
  by eapply Hpos.
Qed.

(** ** The loop over the window map *)

(** The loop started on any map [m0] and any limit: the visited keys
    that have aged out are deleted from [m0], the counts of the others
    are taken off the limit. *)
Lemma window_fold limits now (m0 m : gmap Z Z) a :
  map_fold (range_body limits now) (m0, Int64.wrap a) m =
  (m0 ∖ filter (λ e, Int64.add e.1 (Duration limits) < now e.1) m,
   Int64.wrap (a - total (surviving limits now m))).
Proof.
  apply (map_fold_weak_ind (λ r m, r =
    (m0 ∖ filter (λ e, Int64.add e.1 (Duration limits) < now e.1) m,
     Int64.wrap (a - total (surviving limits now m))))); clear m.
  - unfold surviving. rewrite !map_filter_empty, map_difference_empty.
    rewrite total_empty. do 2 f_equal. lia.
  - intros k c m r Hk ->. unfold range_body, surviving. simpl.
    destruct (Z.ltb_spec (Int64.add k (Duration limits)) (now k)) as [Hx|Hx].
    + rewrite map_filter_insert_True by done.
      rewrite (map_filter_insert_False (λ e, ¬ _)) by (intros Hn; by apply Hn).
      rewrite (delete_id m k) by done. by rewrite (delete_difference _ _ k c).
    + rewrite map_filter_insert_False by (cbn; lia).
      rewrite (delete_id m k) by done.
      rewrite (map_filter_insert_True (λ e, ¬ _)) by (cbn; lia).
      rewrite total_insert_fresh by (by rewrite map_lookup_filter, Hk).
      rewrite sub_wrap_l. do 2 f_equal. lia.
Qed.

Lemma window_eq limits now (m : gmap Z Z) :
  window limits now m =
  (surviving limits now m,
   Int64.wrap (Number limits - total (surviving limits now m))).
Proof.
  unfold window. rewrite window_fold. f_equal.
  apply map_eq. intros k. apply option_eq. intros c. unfold surviving.
  rewrite lookup_difference_Some, map_lookup_filter_Some,
    map_lookup_filter_None. simpl. split.
  - intros [Hk [Hn|Hn]]; [congruence|]. split; [done|].
    intros Hx. by apply (Hn c).
  - intros [Hk Hx]. split; [done|]. right. by intros c' _.
Qed.

(** With the map in order the limit does not wrap: it is the quota as an
    [int] minus the surviving counts. *)
Lemma window_limit limits now (m : gmap Z Z) :
  tracker_ok limits m →
  (window limits now m).2 =
  Int64.wrap (Number limits) - total (surviving limits now m).
Proof.
  intros [Hpos Hle]. rewrite window_eq. simpl.
  rewrite <- sub_wrap_l. unfold Int64.sub.
  pose proof (wrap_in_range (Number limits)) as Hr.
  pose proof (total_filter_le
    (λ e, ¬ Int64.add e.1 (Duration limits) < now e.1) m Hpos) as Hf.
  pose proof (total_nonneg _ (Forall_filter_pos
    (λ e, ¬ Int64.add e.1 (Duration limits) < now e.1) m Hpos)) as H0.
  fold (surviving limits now m) in Hf, H0.
  destruct (Z.le_gt_cases 0 (Int64.wrap (Number limits))) as [Hn|Hn].
  - apply wrap_small. unfold Int64.in_range in *. lia.
  - assert (m = ∅) as -> by (apply total_zero_empty; [done|lia]).
    unfold surviving. rewrite map_filter_empty, total_empty.
    rewrite Z.sub_0_r. apply wrap_idem.
Qed.

Lemma surviving_ok limits now (m : gmap Z Z) :
  tracker_ok limits m → tracker_ok limits (surviving limits now m).
Proof.
  intros [Hpos Hle]. split.
  - by apply Forall_filter_pos.
  - etrans; [by apply total_filter_le|done].
Qed.

Lemma record_ok limits now (m : gmap Z Z) k n :
  tracker_ok limits m → 0 < n → n ≤ (window limits now m).2 →
  tracker_ok limits (<[k:=n]> (surviving limits now m)).
Proof.
  intros Hok Hn Hle. rewrite window_limit in Hle by done.
  destruct (surviving_ok limits now m Hok) as [Hpos Htot]. split.
  - by apply map_Forall_insert_2.
  - etrans; [by apply total_insert_le|]. lia.
Qed.

Lemma surviving_unexpired limits now (m : gmap Z Z) :
  stamps_fit (Duration limits) m →
  surviving limits now m = unexpired (Duration limits) now m.
Proof.
  intros Hfit. unfold surviving, unexpired.
  apply map_filter_ext. intros ts c Hts. simpl.
  unfold Int64.add. rewrite wrap_small; [done|]. by apply (Hfit ts c).
Qed.

(** ** One call of ProcessQueue *)

Section Calls.

Context {Item : Type}.
Implicit Types (st : @State Item) (env : @Env Item) (batch : list Item).

(** The size of the batch a call takes: the limit left by the window
    loop, or the length of the queue if that is shorter. *)
Lemma take_all_or_limit (q : list Item) (limit : Z) :
  0 < limit →
  let n := if Z.of_nat (length q) <? limit then Z.of_nat (length q)
           else limit in
  n = Z.min limit (Z.of_nat (length q)) ∧
  Z.of_nat (length (take (Z.to_nat n) q)) = n.
Proof.
  intros H. simpl. destruct (Z.ltb_spec (Z.of_nat (length q)) limit).
  - split; [lia|]. rewrite length_take. lia.
  - split; [lia|]. rewrite length_take. lia.
Qed.

Lemma cut_prefix (q late : list Item) (n : nat) :
  (n ≤ length q)%nat →
  take n (q ++ late) = take n q ∧
  (if Z.of_nat (length (q ++ late)) <=? Z.of_nat n then []
   else drop n (q ++ late)) = drop n q ++ late.
Proof.
  intros Hn. split.
  - by rewrite take_app_le.
  - destruct (Z.leb_spec (Z.of_nat (length (q ++ late))) (Z.of_nat n))
      as [Hle|Hlt].
    + rewrite length_app in Hle.
      assert (length late = 0%nat) as Hl by lia.
      apply nil_length_inv in Hl as ->. rewrite drop_ge by lia. done.
    + by rewrite drop_app_le.
Qed.

Lemma ProcessQueue_empty limits env st :
  Queue st = [] → ProcessQueue limits env st = (nothing, st).
Proof. intros H. unfold ProcessQueue. by rewrite H. Qed.

Lemma ProcessQueue_exhausted limits env st :
  Queue st ≠ [] → (window limits (seen env) (processedItems st)).2 ≤ 0 →
  ProcessQueue limits env st =
  (nothing,
   mkState (Queue st) (TotalProcessed st)
     (surviving limits (seen env) (processedItems st))).
Proof.
  intros Hq Hw. unfold ProcessQueue.
  destruct (Z.eqb_spec (Z.of_nat (length (Queue st))) 0) as [H0|_].
  { destruct (Queue st); [done|simpl in H0; lia]. }
  destruct (Z.leb_spec (window limits (seen env) (processedItems st)).2 0);
    [|lia].
  by rewrite window_eq.
Qed.

(** A call that gets past both tests, in terms of the batch it takes:
    the first [n] items of the queue as it is under the lock of line
    223, [n] being the smaller of the limit and the queue's length. *)
Lemma ProcessQueue_attempt limits env st :
  Queue st ≠ [] → 0 < (window limits (seen env) (processedItems st)).2 →
  let locked := Queue st ++ early env in
  let n := Z.min (window limits (seen env) (processedItems st)).2
             (Z.of_nat (length locked)) in
  let batch := take (Z.to_nat n) locked in
  let kept := surviving limits (seen env) (processedItems st) in
  let entry := Some (stamp env, n) in
  let fails e s :=
    (mkReport (Some e) s [] (early env ++ late env) entry,
     mkState (locked ++ late env) (TotalProcessed st)
       (<[stamp env := n]> kept)) in
  0 < n ∧ Z.of_nat (length batch) = n ∧
  ProcessQueue limits env st =
  match exchange env batch with
  | MarshalFails =>
      (mkReport (Some MarshalErr) None [] (early env ++ late env) None,
       mkState (locked ++ late env) (TotalProcessed st) kept)
  | NewRequestFails => fails NewRequestErr None
  | DoFails => fails DoErr (Some batch)
  | ReadAllFails => fails ReadAllErr (Some batch)
  | UnmarshalFails => fails UnmarshalErr (Some batch)
  | Responds process =>
      if Success process then
        (mkReport None (Some batch) batch (early env ++ late env) entry,
         mkState (drop (Z.to_nat n) locked ++ late env)
           (Int64.add (TotalProcessed st) n) (<[stamp env := n]> kept))
      else
        fails (errors_New ("Error response from server: " +:+ Error process))
          (Some batch)
  end.
Proof.
  intros Hq Hw locked n batch kept entry fails.
  destruct (take_all_or_limit locked _ Hw) as [Hn Hlen].
  fold n in Hn. assert (0 < Z.of_nat (length locked)) as Hpos.
  { unfold locked. rewrite length_app.
    destruct (Queue st); [done|simpl; lia]. }
  split; [lia|]. split.
  { unfold batch. rewrite length_take. lia. }
  unfold ProcessQueue.
  destruct (Z.eqb_spec (Z.of_nat (length (Queue st))) 0) as [H0|_].
  { destruct (Queue st); [done|simpl in H0; lia]. }
  destruct (Z.leb_spec (window limits (seen env) (processedItems st)).2 0);
    [lia|].
  fold locked. cbv zeta. rewrite Hn. fold n. fold batch.
  rewrite window_eq. cbn [fst snd]. fold kept.
  destruct (cut_prefix locked (late env) (Z.to_nat n)) as [Ht Hd]; [lia|].
  rewrite Z2Nat.id in Hd by lia.
  destruct (exchange env batch) as [| | | | |[[] msg]]; try done.
  cbn [negb Success]. unfold Batch in *. by rewrite Ht, Hd.
Qed.

(** The window loop computes the specification's remaining capacity. *)
Lemma window_remaining limits now (m : gmap Z Z) :
  0 ≤ Number limits < Int64.half →
  tracker_ok limits m → stamps_fit (Duration limits) m →
  let live := unexpired (Duration limits) now m in
  window limits now m = (live, Number limits - total live) ∧
  0 ≤ Number limits - total live ∧
  RemainingCapacity limits now m = Number limits - total live.
Proof.
  intros HN Hok Hfit live.
  assert (Int64.wrap (Number limits) = Number limits) as HwN.
  { apply wrap_small. unfold Int64.in_range. lia. }
  pose proof (window_limit limits now m Hok) as Hlim.
  rewrite window_eq in *. cbn [snd] in Hlim.
  rewrite surviving_unexpired in * by done. fold live in Hlim |- *.
  rewrite Hlim, HwN. destruct Hok as [Hpos Hle]. rewrite HwN in Hle.
  pose proof (total_filter_le (λ e, ¬ e.1 + Duration limits < now e.1) m Hpos)
    as Hf. fold (unexpired (Duration limits) now m) in Hf. fold live in Hf.
  unfold RemainingCapacity. fold live. repeat split; lia.
Qed.

Lemma nil_or_not (q : list Item) : q = [] ∨ q ≠ [].
Proof. destruct q; [by left|by right]. Qed.

End Calls.

(** Splits a goal about [ProcessQueue limits env st] along the three ways
    a call can go, rewriting the call into its normal form. *)
Ltac call_cases limits env st :=
  let Hq := fresh "Hq" in
  let Hw := fresh "Hw" in
  let Hn := fresh "Hn" in
  let Hlen := fresh "Hlen" in
  destruct (nil_or_not (Queue st)) as [Hq|Hq];
  [ rewrite (ProcessQueue_empty limits env st Hq)
  | destruct (Z.le_gt_cases
                (window limits (seen env) (processedItems st)).2 0)
      as [Hw|Hw];
    [ rewrite (ProcessQueue_exhausted limits env st Hq Hw)
    | destruct (ProcessQueue_attempt limits env st Hq Hw)
        as (Hn & Hlen & ->);
      destruct (exchange env _) as [| | | | |[[] ?]] ] ];
  cbn [fst snd err sent removed arrived wrote Queue TotalProcessed
       processedItems
       Success Error].

Section Claims.

Context {Item : Type}.
Implicit Types (st : @State Item) (env : @Env Item) (batch : list Item).

(** C3. A call of [ProcessQueue] that returns an error removes nothing:
    the queue afterwards is the queue before followed by what
    producers appended meanwhile, and the batch that was submitted is
    still its head, item for item. *)
Theorem failed_call_keeps_queue limits env st :
  let r := (ProcessQueue limits env st).1 in
  let st' := (ProcessQueue limits env st).2 in
  err r ≠ None →
  removed r = [] ∧
  Queue st' = Queue st ++ arrived r ∧
  TotalProcessed st' = TotalProcessed st ∧
  ∀ batch, sent r = Some batch →
    take (length batch) (Queue st') = batch.
Proof.
  cbv zeta. call_cases limits env st; intros Herr; try done.
  all: rewrite <- ?(assoc_L (++)); repeat split; try done.
  all: intros batch [= <-].
  all: rewrite (assoc_L (++)), take_app_le by (rewrite length_take; lia).
  all: f_equal; lia.
Qed.

(** C10. When the server confirms a submission, what the call cuts off
    the queue is exactly the batch it read and submitted, taken from
    the head of the queue as it stood under the first lock; the items
    producers appended after that snapshot follow the rest of the
    queue, untouched and in order. *)
Theorem confirmed_call_cuts_submitted_prefix limits env st :
  let r := (ProcessQueue limits env st).1 in
  let st' := (ProcessQueue limits env st).2 in
  ∀ batch, err r = None → sent r = Some batch →
    removed r = batch ∧
    Queue st ++ early env =
      batch ++ drop (length batch) (Queue st ++ early env) ∧
    Queue st' = drop (length batch) (Queue st ++ early env) ++ late env.
Proof.
  cbv zeta. call_cases limits env st; intros batch Herr Hs; simplify_eq.
  split; [done|].
  replace (length (take _ (Queue st ++ early env))) with
    (Z.to_nat ((window limits (seen env) (processedItems st)).2
               `min` Z.of_nat (length (Queue st ++ early env)))) by lia.
  by rewrite take_drop.
Qed.

(** C2, as the code has it. A call that gets as far as line 238 writes
    the entry [(stamp, n)] into the map before the request is built,
    with [n] the size of the batch, and the entry is there when the
    call returns whatever the fate of the request: every call that
    hands a batch to [client.Do], be the submission confirmed, rejected
    or lost in transport, has written the entry and leaves the map as
    the surviving entries with that entry written over them, and so
    does a call whose [http.NewRequest] fails. A call that writes no
    entry leaves the map alone or only drops the aged-out entries, and
    a call that attempts nothing (empty queue or no capacity) writes
    none. *)
Theorem entry_written_before_submission limits env st :
  let r := (ProcessQueue limits env st).1 in
  let st' := (ProcessQueue limits env st).2 in
  let kept := surviving limits (seen env) (processedItems st) in
  (∀ batch, sent r = Some batch →
     wrote r = Some (stamp env, Z.of_nat (length batch)) ∧
     processedItems st' = <[stamp env := Z.of_nat (length batch)]> kept) ∧
  (err r = Some NewRequestErr →
     ∃ n, 0 < n ∧ wrote r = Some (stamp env, n) ∧
          processedItems st' = <[stamp env := n]> kept) ∧
  (wrote r = None →
     processedItems st' = processedItems st ∨ processedItems st' = kept) ∧
  (err r = None → sent r = None → wrote r = None).
Proof.
  cbv zeta. call_cases limits env st.
  all: split; [intros batch Hb; simplify_eq; by rewrite Hlen|].
  all: split; [intros He; simplify_eq; eauto|].
  all: split; [intros Hnone; simplify_eq; (by left) || (by right)|done].
Qed.

(** C8. [HandleProcess] on a request that binds to the item list
    [Data] answers with a failure exactly when [Data] is empty; the
    failure is the 400 reply "No items provided" and leaves the state
    as it was; a non-empty list gets the 200 reply and is appended to
    the tail of the queue in its order, the counter and the window map
    being left alone; and the loop's own counter is out of the
    handler's reach. *)
Theorem HandleProcess_rejects_empty_only (Data : list Item) st :
  let reply := (HandleProcess (Bound Data) st).1 in
  let st' := (HandleProcess (Bound Data) st).2 in
  (Success (Body reply) = false ↔ Data = []) ∧
  (Data = [] →
     reply = mkReply StatusBadRequest (mkResponse false "No items provided")
     ∧ st' = st) ∧
  (Data ≠ [] →
     reply = mkReply StatusOK (mkResponse true EmptyString) ∧
     Queue st' = Queue st ++ Data ∧
     TotalProcessed st' = TotalProcessed st ∧
     processedItems st' = processedItems st) ∧
  ∀ limits g,
    errorsCount (step limits (Request (Bound Data)) g).2 = errorsCount g ∧
    returned (step limits (Request (Bound Data)) g).2 = returned g.
Proof.
  cbv zeta. unfold step, HandleProcess. destruct Data as [|x Data]; simpl.
  - repeat split; done.
  - repeat split; done.
Qed.

(** A quota that does not fit an [int] becomes negative at line 209,
    and the loop never submits anything. *)
Lemma quota_beyond_int limits env st :
  Int64.half ≤ Number limits < Int64.modulus →
  tracker_ok limits (processedItems st) →
  (ProcessQueue limits env st).1 = nothing ∧
  Queue (ProcessQueue limits env st).2 = Queue st.
Proof.
  intros HN Hok.
  assert (Int64.wrap (Number limits) < 0) as Hneg.
  { unfold Int64.wrap, Int64.half, Int64.modulus in *.
    replace (Number limits + 2 ^ 63) with
      (Number limits - 2 ^ 63 + 1 * 2 ^ 64) by lia.
    rewrite Z_mod_plus_full, Z.mod_small; lia. }
  pose proof (window_limit limits (seen env) _ Hok) as Hlim.
  pose proof (surviving_ok limits (seen env) _ Hok) as [Hpos _].
  apply total_nonneg in Hpos.
  call_cases limits env st; try done; lia.
Qed.

(** C7. In a call made with the map in order, the limit the loop of
    lines 211-217 arrives at is the specification's remaining
    capacity: the entries with [timestamp + D < now] are dropped, the
    counts of the others are summed, and the limit is the quota minus
    that sum, which is never negative. A batch is submitted only if
    that capacity is positive and the queue is not empty, and it is
    then the first [min(remaining, queue length)] items of the queue;
    conversely a non-empty queue and a positive capacity lead to a
    submission unless building the request fails. With a quota of 10
    and 25 items queued the first call submits the first 10 items; a
    later call for which that entry has not aged out submits nothing
    and changes nothing; once the entry has aged out the next call
    submits 10 items again. *)
Theorem batch_is_remaining_capacity :
  (∀ limits env st,
     0 ≤ Number limits < Int64.half →
     tracker_ok limits (processedItems st) →
     stamps_fit (Duration limits) (processedItems st) →
     let r := (ProcessQueue limits env st).1 in
     let st' := (ProcessQueue limits env st).2 in
     let live := unexpired (Duration limits) (seen env) (processedItems st) in
     let remaining :=
       RemainingCapacity limits (seen env) (processedItems st) in
     let locked := Queue st ++ early env in
     let n := Z.min remaining (Z.of_nat (length locked)) in
     window limits (seen env) (processedItems st) = (live, remaining) ∧
     remaining = Number limits - total live ∧
     (∀ batch, sent r = Some batch →
        0 < remaining ∧ Queue st ≠ [] ∧
        batch = take (Z.to_nat n) locked ∧ Z.of_nat (length batch) = n) ∧
     (Queue st ≠ [] → 0 < remaining →
        sent r = Some (take (Z.to_nat n) locked) ∨
        err r = Some MarshalErr ∨ err r = Some NewRequestErr) ∧
     (Queue st = [] ∨ remaining = 0 →
        r = nothing ∧ Queue st' = Queue st ∧
        TotalProcessed st' = TotalProcessed st) ∧
     (Queue st ≠ [] → remaining = 0 → processedItems st' = live)) ∧
  (∀ (D tp : Z) (q : list Item) (env1 env2 env3 : @Env Item),
     length q = 25%nat →
     Int64.in_range (stamp env1 + D) →
     exchange env1 = MockServer.HandleProcess 10 →
     exchange env3 = MockServer.HandleProcess 10 →
     let limits := mkLimits 10 D in
     let r1 := (ProcessQueue limits env1 (mkState q tp ∅)).1 in
     let st1 := (ProcessQueue limits env1 (mkState q tp ∅)).2 in
     sent r1 = Some (take 10 q) ∧ err r1 = None ∧
     removed r1 = take 10 q ∧
     Queue st1 = drop 10 q ++ early env1 ++ late env1 ∧
     processedItems st1 = {[stamp env1 := 10]} ∧
     (¬ stamp env1 + D < seen env2 (stamp env1) →
        ProcessQueue limits env2 st1 = (nothing, st1)) ∧
     (stamp env1 + D < seen env3 (stamp env1) →
        sent (ProcessQueue limits env3 st1).1 =
          Some (take 10 (drop 10 q)))).
Proof.
  split.
  - intros limits env st HN Hok Hfit. cbv zeta.
    destruct (window_remaining limits (seen env) (processedItems st)
                HN Hok Hfit) as (Hw & H0 & Hrem).
    rewrite Hrem, Hw. split; [done|]. split; [done|].
    pose proof (f_equal snd Hw) as Hw2. cbn [snd] in Hw2.
    pose proof (surviving_unexpired limits (seen env) _ Hfit) as Hs.
    call_cases limits env st; rewrite ?Hw2, ?Hs in *.
    all: split;
      [intros batch Hb; simplify_eq; repeat split; first [done|lia]|].
    all: split;
      [intros Hne Hpos;
       first [done | lia | by left | right; by left | right; by right]|].
    all: split;
      [intros [Hnil|Hz]; first [done | lia | by repeat split]
      |intros Hne Hz; first [done | lia]].
  - intros D tp q env1 env2 env3 Hlen Hfit Hx1 Hx3. cbv zeta.
    set (limits := mkLimits 10 D).
    assert (window limits (seen env1) ∅ = (∅, 10)) as Hw1.
    { rewrite window_eq. unfold surviving.
      by rewrite map_filter_empty, total_empty. }
    assert (q ≠ []) as Hq by (intros ->; done).
    destruct (ProcessQueue_attempt limits env1 (mkState q tp ∅))
      as (_ & _ & Hcall);
      [done|cbn [processedItems]; by rewrite Hw1|].
    cbn [Queue TotalProcessed processedItems] in Hcall.
    rewrite Hw1 in Hcall. cbn [snd] in Hcall.
    rewrite length_app, Hlen in Hcall.
    replace (10 `min` Z.of_nat (25 + length (early env1))) with 10
      in Hcall by lia.
    rewrite take_app_le in Hcall by lia.
    rewrite Hx1 in Hcall. unfold MockServer.HandleProcess,
      MockServer.Process in Hcall. rewrite length_take, Hlen in Hcall.
    change (Int64.wrap 10 <? Z.of_nat (Z.to_nat 10 `min` 25))
      with false in Hcall. cbn [Success] in Hcall.
    rewrite Hcall. cbn [fst snd sent err removed Queue processedItems].
    unfold surviving. rewrite map_filter_empty, insert_empty.
    rewrite drop_app_le by lia. rewrite <- (assoc_L (++)).
    repeat split; try done.
    + intros Hlive.
      rewrite ProcessQueue_exhausted; cbn [Queue processedItems].
      * unfold surviving. rewrite map_filter_singleton_True; [done|].
        cbn. unfold Int64.add. by rewrite wrap_small.
      * intros Hnil. apply (f_equal length) in Hnil.
        rewrite !length_app, length_drop, Hlen in Hnil. simpl in Hnil. lia.
      * rewrite window_eq. cbn [snd]. unfold surviving.
        rewrite map_filter_singleton_True.
        -- unfold total. rewrite map_fold_singleton. done.
        -- cbn. unfold Int64.add. by rewrite wrap_small.
    + intros Hold.
      assert (window limits (seen env3) {[stamp env1 := 10]} = (∅, 10))
        as Hw3.
      { rewrite window_eq. unfold surviving.
        rewrite map_filter_singleton_False.
        - by rewrite total_empty.
        - cbn. unfold Int64.add. rewrite wrap_small by done. lia. }
      match goal with |- context [ProcessQueue limits env3 ?st] =>
        destruct (ProcessQueue_attempt limits env3 st)
          as (_ & _ & Hcall3) end.
      { cbn [Queue]. intros Hnil. apply (f_equal length) in Hnil.
        rewrite !length_app, length_drop, Hlen in Hnil. simpl in Hnil. lia. }
      { cbn [processedItems]. by rewrite Hw3. }
      cbn [Queue TotalProcessed processedItems] in Hcall3.
      rewrite Hw3 in Hcall3. cbn [snd] in Hcall3.
      rewrite Hcall3, Hx3. unfold MockServer.HandleProcess.
      assert (∀ rest : list Item,
        take (Z.to_nat (10 `min` Z.of_nat (length (drop 10 q ++ rest))))
          (drop 10 q ++ rest) = take 10 (drop 10 q)) as Htake.
      { intros rest. rewrite length_app, length_drop, Hlen.
        replace (Z.to_nat (10 `min` Z.of_nat (25 - 10 + length rest)))
          with 10%nat by lia.
        rewrite take_app_le; [done|]. rewrite length_drop, Hlen. lia. }
      rewrite <- !(assoc_L (++)). rewrite Htake.
      by destruct (MockServer.Process _ _).
Qed.

End Claims.

(** ** Runs of the process *)

Section Runs.

Context {Item : Type}.
Implicit Types (st : @State Item) (env : @Env Item) (g : @Loop Item)
  (ev : @Event Item) (evs : list (@Event Item)).

Lemma ProcessQueue_tracker_ok limits env st :
  tracker_ok limits (processedItems st) →
  tracker_ok limits (processedItems (ProcessQueue limits env st).2).
Proof.
  intros Hok.
  pose proof (surviving_ok limits (seen env) _ Hok) as Hs.
  call_cases limits env st; try done.
  all: apply record_ok; [done|done|lia].
Qed.

Lemma step_tracker_ok limits ev g :
  tracker_ok limits (processedItems (mem g)) →
  tracker_ok limits (processedItems (mem (step limits ev g).2)).
Proof.
  intros Hok. destruct ev as [[msg|Data]| |env]; simpl; try done.
  - by destruct (Z.of_nat (length Data) =? 0).
  - destruct (returned g); [done|]. unfold default_case.
    pose proof (ProcessQueue_tracker_ok limits env (mem g) Hok) as H'.
    by destruct (ProcessQueue limits env (mem g)).
Qed.

Lemma run_cons limits ev evs g :
  run limits (ev :: evs) g =
  ((step limits ev g).1 :: (run limits evs (step limits ev g).2).1,
   (run limits evs (step limits ev g).2).2).
Proof.
  cbn [run]. destruct (step limits ev g) as [r g1]. cbn [fst snd].
  by destruct (run limits evs g1).
Qed.

Lemma run_app limits evs1 evs2 g :
  run limits (evs1 ++ evs2) g =
  ((run limits evs1 g).1 ++ (run limits evs2 (run limits evs1 g).2).1,
   (run limits evs2 (run limits evs1 g).2).2).
Proof.
  revert g. induction evs1 as [|ev evs1 IH]; intros g.
  - simpl. by destruct (run limits evs2 g).
  - rewrite <- app_comm_cons, !run_cons, IH. done.
Qed.

Lemma run_tracker_ok limits evs g :
  tracker_ok limits (processedItems (mem g)) →
  tracker_ok limits (processedItems (mem (run limits evs g).2)).
Proof.
  revert g. induction evs as [|ev evs IH]; intros g Hok; [done|].
  rewrite run_cons. cbn [snd]. by apply IH, step_tracker_ok.
Qed.

Lemma reachable_tracker_ok limits g :
  reachable limits g → tracker_ok limits (processedItems (mem g)).
Proof.
  intros [evs <-]. apply run_tracker_ok. cbn [start mem processedItems].
  split.
  - apply map_Forall_empty.
  - rewrite total_empty. lia.
Qed.

(** *** The entries written over time *)

Lemma sum_counts_le_total (l : list (Z * Z)) (m : gmap Z Z) :
  NoDup l.*1 → (∀ s n, (s, n) ∈ l → m !! s = Some n) →
  map_Forall (λ _ c, 0 < c) m → sum_counts l ≤ total m.
Proof.
  revert m. induction l as [|[s n] l IH]; intros m Hnd Hin Hpos.
  - simpl. by apply total_nonneg.
  - rewrite fmap_cons in Hnd. apply NoDup_cons in Hnd as [Hs Hnd].
    cbn [sum_counts foldr snd]. fold (sum_counts l).
    rewrite (total_delete m s n) by (apply Hin; left).
    assert (sum_counts l ≤ total (delete s m)); [|lia].
    apply IH; [done| |].
    + intros s' n' Hl. rewrite lookup_delete_ne; [apply Hin; by right|].
      intros <-. apply Hs. apply list_elem_of_fmap. by exists (s, n').
    + intros k c Hk. apply lookup_delete_Some in Hk as [_ Hk].
      by apply (Hpos k c).
Qed.

Lemma counted_snoc D t (h : list (Z * Z)) e :
  counted D t (h ++ [e]) =
  counted D t h + (if decide (t - D < e.1 ≤ t) then e.2 else 0).
Proof.
  unfold counted. rewrite filter_app.
  generalize (filter (λ e, t - D < e.1 ≤ t) h). intros l.
  rewrite filter_cons, filter_nil.
  induction l as [|x l IH]; cbn [app sum_counts foldr].
  - destruct (decide _); simpl; lia.
  - fold (sum_counts (l ++ (if decide (t - D < e.1 ≤ t) then [e] else [])))
      (sum_counts l). rewrite IH. lia.
Qed.

(** Time passes and aged-out entries may be dropped. *)
Lemma history_no_write limits now T s' (h : list (Z * Z)) (m m' : gmap Z Z) :
  history_ok limits T h m → T < s' → (∀ ts, now ts ≤ s') →
  m' = m ∨ m' = surviving limits now m →
  history_ok limits s' h m'.
Proof.
  intros (Hok & Hst & Hnd & Hin & Hcnt) HT Hnow Hm'.
  split; [|split; [|split; [|split]]]; try done.
  - destruct Hm' as [->| ->]; [done|by apply surviving_ok].
  - intros s n Hs. destruct (Hst s n Hs). split; [lia|done].
  - intros s n Hs. destruct (Hst s n Hs) as [_ Hr].
    destruct (Hin s n Hs) as [Hm|Hold]; [|right; lia].
    destruct Hm' as [->| ->]; [by left|].
    destruct (decide (Int64.add s (Duration limits) < now s)) as [Hx|Hx].
    + right. unfold Int64.add in Hx. rewrite wrap_small in Hx by done.
      specialize (Hnow s). lia.
    + left. unfold surviving. by apply map_lookup_filter_Some.
Qed.

(** An entry is written. *)
Lemma history_write limits now T s' n (h : list (Z * Z)) (m : gmap Z Z) :
  0 ≤ Number limits →
  history_ok limits T h m → T < s' → (∀ ts, now ts ≤ s') →
  Int64.in_range (s' + Duration limits) →
  0 < n → n ≤ (window limits now m).2 →
  history_ok limits s' (h ++ [(s', n)]) (<[s' := n]> (surviving limits now m)).
Proof.
  intros HN Hall HT Hnow Hfit Hn Hle.
  pose proof (history_no_write limits now T s' h m _ Hall HT Hnow
                (or_intror eq_refl)) as (Hok1 & Hst1 & Hnd1 & Hin1 & Hcnt1).
  destruct Hall as (Hok & Hst & Hnd & Hin & Hcnt).
  assert (s' ∉ h.*1) as Hfresh.
  { intros ([s n0] & -> & Hs)%list_elem_of_fmap.
    destruct (Hst s n0 Hs). simpl in *. lia. }
  split; [|split; [|split; [|split]]].
  - by apply record_ok.
  - intros s n0 [Hs|Hs%list_elem_of_singleton]%elem_of_app.
    + exact (Hst1 s n0 Hs).
    + simplify_eq. split; [lia|done].
  - rewrite fmap_app. apply NoDup_app. split; [done|]. split.
    + intros s Hs [= ->]%list_elem_of_singleton. done.
    + apply NoDup_singleton.
  - intros s n0 [Hs|Hs%list_elem_of_singleton]%elem_of_app.
    + destruct (Hin1 s n0 Hs) as [Hm|Hold]; [|by right].
      left. rewrite lookup_insert_ne; [done|]. intros <-.
      apply Hfresh. apply list_elem_of_fmap. by exists (s', n0).
    + simplify_eq. left. apply lookup_insert_eq.
  - intros t. rewrite counted_snoc. cbn [fst snd].
    destruct (decide (t - Duration limits < s' ≤ t)) as [Hwin|_];
      [|specialize (Hcnt t); lia].
    rewrite window_limit in Hle by done.
    pose proof (wrap_le_nonneg _ HN).
    assert (counted (Duration limits) t h ≤ total (surviving limits now m));
      [|lia].
    apply sum_counts_le_total.
    + eapply sublist_NoDup; [exact Hnd|]. apply fmap_sublist, sublist_filter.
    + intros s n0 [Hw Hs]%list_elem_of_filter. cbn [fst] in Hw.
      destruct (Hst s n0 Hs) as [HsT Hr].
      destruct (Hin s n0 Hs) as [Hm|Hold]; [|lia].
      unfold surviving. apply map_lookup_filter_Some. split; [done|].
      cbn [fst]. unfold Int64.add. rewrite wrap_small by done.
      specialize (Hnow s). lia.
    + by destruct Hok1.
Qed.

Lemma call_history limits env st T (h : list (Z * Z)) :
  0 ≤ Number limits →
  history_ok limits T h (processedItems st) →
  T < stamp env → (∀ ts, seen env ts ≤ stamp env) →
  Int64.in_range (stamp env + Duration limits) →
  history_ok limits (stamp env)
    (h ++ omap wrote [(ProcessQueue limits env st).1])
    (processedItems (ProcessQueue limits env st).2).
Proof.
  intros HN Hall HT Hnow Hfit. call_cases limits env st.
  all: cbn [omap list_omap wrote]; rewrite ?app_nil_r.
  all: try (eapply history_no_write; [done..|by left]).
  all: try (eapply history_no_write; [done..|by right]).
  all: apply (history_write limits (seen env) T); try done; lia.
Qed.

Lemma run_history limits evs g T (h : list (Z * Z)) :
  0 ≤ Number limits →
  history_ok limits T h (processedItems (mem g)) →
  timed (Duration limits) T evs →
  ∃ T', history_ok limits T' (h ++ written (run limits evs g).1)
          (processedItems (mem (run limits evs g).2)).
Proof.
  intros HN. revert g T h.
  induction evs as [|ev evs IH]; intros g T h Hall Htimed.
  { exists T. unfold written. simpl. by rewrite app_nil_r. }
  rewrite run_cons. cbn [fst snd]. unfold written.
  change (?r :: ?rs) with ([r] ++ rs). rewrite omap_app, (assoc_L (++)).
  destruct ev as [req| |env]; cbn [timed] in Htimed.
  - apply (IH _ T). 2: done. cbn [step].
    destruct req as [msg|Data]; cbn [HandleProcess omap list_omap wrote snd fst
      mem processedItems]; rewrite ?app_nil_r; [done|].
    destruct (Z.of_nat (length Data) =? 0);
      cbn [omap list_omap wrote snd fst mem processedItems];
      by rewrite ?app_nil_r.
  - apply (IH _ T); [|done]. cbn. by rewrite app_nil_r.
  - destruct Htimed as (HT & Hnow & Hfit & Htimed).
    apply (IH _ (stamp env)); [|done]. cbn [step].
    destruct (returned g).
    + cbn. rewrite app_nil_r.
      eapply history_no_write; [done|done|exact Hnow|by left].
    + pose proof (call_history limits env (mem g) T h HN Hall HT Hnow Hfit)
        as Hcall. unfold default_case.
      by destruct (ProcessQueue limits env (mem g)).
Qed.

(** C4. In every state the process can reach, the counts of the
    entries of the window map stamped in (t - D, t] add up to at most
    the quota, whatever the time t; and every batch the loop submits
    from such a state is no longer than the quota minus the counts of
    the entries that have not aged out when the call looks at them
    (those the loop keeps, which are those with [timestamp + D] not
    before the clock when the stamps fit an [int64]). Moreover, over
    any run whose clock moves forward, the entries ever written at line
    238 with stamps in (t - D, t] count at most the quota, whatever the
    time t. *)
Theorem quota_never_exceeded limits :
  0 ≤ Number limits →
  (∀ g, reachable limits g →
     (∀ t, total (within (Duration limits) t (processedItems (mem g)))
           ≤ Number limits) ∧
     (∀ env batch,
        sent (ProcessQueue limits env (mem g)).1 = Some batch →
        Z.of_nat (length batch) ≤
          Number limits -
          total (surviving limits (seen env) (processedItems (mem g))) ∧
        (stamps_fit (Duration limits) (processedItems (mem g)) →
         Z.of_nat (length batch) ≤
           Number limits -
           total (unexpired (Duration limits) (seen env)
                    (processedItems (mem g)))))) ∧
  (∀ evs T t,
     timed (Duration limits) T evs →
     counted (Duration limits) t (written (run limits evs start).1)
       ≤ Number limits).
Proof.
  intros HN. split.
  - intros g Hreach.
    pose proof (reachable_tracker_ok limits g Hreach) as Hok.
    pose proof (wrap_le_nonneg _ HN) as HwN. split.
    + intros t. destruct Hok as [Hpos Hle]. unfold within.
      etrans; [by apply total_filter_le|]. lia.
    + intros env batch Hsent.
      assert (Z.of_nat (length batch) ≤ Number limits -
        total (surviving limits (seen env) (processedItems (mem g)))) as Hb.
      { pose proof (window_limit limits (seen env) _ Hok) as Hlim.
        revert Hsent. call_cases limits env (mem g); intros Hb; simplify_eq.
        all: rewrite Hlen; lia. }
      split; [done|]. intros Hfit. by rewrite <- surviving_unexpired.
  - intros evs T t Htimed.
    destruct (run_history limits evs start T [] HN) as (T' & Hall);
      [|done|].
    + cbn [start mem processedItems]. split; [|split; [|split; [|split]]].
      * split; [apply map_Forall_empty|]. rewrite total_empty. lia.
      * by intros s n ?%elem_of_nil.
      * constructor.
      * by intros s n ?%elem_of_nil.
      * intros t'. by cbn.
    + destruct Hall as (_ & _ & _ & _ & Hcnt). apply Hcnt.
Qed.

(** What a call does to the queue and to the counter. *)
Lemma ProcessQueue_queue limits env st :
  let r := (ProcessQueue limits env st).1 in
  let st' := (ProcessQueue limits env st).2 in
  Queue st ++ arrived r = removed r ++ Queue st' ∧
  removed r =
    match err r, sent r with None, Some batch => batch | _, _ => [] end ∧
  (TotalProcessed st' =
     Int64.wrap (TotalProcessed st + Z.of_nat (length (removed r))) ∨
   removed r = [] ∧ TotalProcessed st' = TotalProcessed st).
Proof.
  cbv zeta. call_cases limits env st.
  all: rewrite ?app_nil_r, <- ?(assoc_L (++)).
  all: try (repeat split; try done; by right).
  rewrite Hlen. repeat split; try done; [|by left].
  rewrite !(assoc_L (++)). f_equal. by rewrite take_drop.
Qed.

Lemma step_queue limits ev g :
  let r := (step limits ev g).1 in
  let g' := (step limits ev g).2 in
  Queue (mem g) ++ arrived r = removed r ++ Queue (mem g') ∧
  removed r =
    match err r, sent r with None, Some batch => batch | _, _ => [] end ∧
  (TotalProcessed (mem g') =
     Int64.wrap (TotalProcessed (mem g) + Z.of_nat (length (removed r))) ∨
   removed r = [] ∧ TotalProcessed (mem g') = TotalProcessed (mem g)).
Proof.
  cbv zeta. destruct ev as [[msg|Data]| |env]; cbn [step].
  - simpl. rewrite app_nil_r. repeat split; by right.
  - unfold HandleProcess. destruct (Z.eqb_spec (Z.of_nat (length Data)) 0).
    + simpl. rewrite app_nil_r. repeat split; by right.
    + simpl. repeat split; by right.
  - simpl. rewrite app_nil_r. repeat split; by right.
  - destruct (returned g).
    + simpl. rewrite app_nil_r. repeat split; by right.
    + unfold default_case.
      pose proof (ProcessQueue_queue limits env (mem g)) as H.
      destruct (ProcessQueue limits env (mem g)) as [r st']. simpl in *.
      done.
Qed.

Lemma run_queue limits evs g :
  let rs := (run limits evs g).1 in
  let g' := (run limits evs g).2 in
  Queue (mem g) ++ enqueued rs = dequeued rs ++ Queue (mem g').
Proof.
  cbv zeta. revert g. induction evs as [|ev evs IH]; intros g.
  - simpl. unfold enqueued, dequeued. simpl. by rewrite app_nil_r.
  - rewrite run_cons. cbn [fst snd]. unfold enqueued, dequeued in *.
    rewrite !fmap_cons, !concat_cons.
    destruct (step_queue limits ev g) as (Hq & _).
    rewrite (assoc_L (++)), Hq, <- !(assoc_L (++)). f_equal. apply IH.
Qed.

(** C5. Over any run of the process (requests of producers, stop
    signals and iterations of the loop in any interleaving, any fate
    of the submissions), what producers enqueued, in the order of
    enqueueing, is what the loop has cut off the queue, in the order
    of cutting, followed by what is still queued: the removed items
    are a prefix of the enqueued ones, none twice and none skipped.
    What an event cuts off is the batch the server has just confirmed
    and nothing otherwise. *)
Theorem removed_is_prefix_of_enqueued limits evs :
  let rs := (run limits evs start).1 in
  let g := (run limits evs start).2 in
  enqueued rs = dequeued rs ++ Queue (mem g) ∧
  dequeued rs `prefix_of` enqueued rs ∧
  Forall (λ r, removed r =
               match err r, sent r with
               | None, Some batch => batch
               | _, _ => []
               end) rs.
Proof.
  cbv zeta. pose proof (run_queue limits evs start) as Hq.
  cbn [start mem Queue app] in Hq. split; [done|]. split.
  - rewrite Hq. by eexists.
  - clear Hq. generalize (@start Item). induction evs as [|ev evs IH];
      intros g; [by constructor|].
    rewrite run_cons. cbn [fst]. constructor; [|apply IH].
    by destruct (step_queue limits ev g) as (_ & ? & _).
Qed.

Lemma wrap_add_l a b : Int64.wrap (Int64.wrap a + b) = Int64.wrap (a + b).
Proof.
  unfold Int64.wrap. f_equal.
  replace ((a + Int64.half) mod Int64.modulus - Int64.half + b + Int64.half)
    with ((a + Int64.half) mod Int64.modulus + b) by lia.
  rewrite Zplus_mod_idemp_l. f_equal. lia.
Qed.

Lemma enqueued_snoc (rs : list (@Report Item)) r :
  enqueued (rs ++ [r]) = enqueued rs ++ arrived r.
Proof.
  unfold enqueued. rewrite fmap_app, concat_app. simpl.
  by rewrite app_nil_r.
Qed.

Lemma dequeued_snoc (rs : list (@Report Item)) r :
  dequeued (rs ++ [r]) = dequeued rs ++ removed r.
Proof.
  unfold dequeued. rewrite fmap_app, concat_app. simpl.
  by rewrite app_nil_r.
Qed.

Lemma run_TotalProcessed limits evs g a :
  TotalProcessed (mem g) = Int64.wrap a →
  TotalProcessed (mem (run limits evs g).2) =
  Int64.wrap (a + Z.of_nat (length (dequeued (run limits evs g).1))).
Proof.
  revert g a. induction evs as [|ev evs IH]; intros g a Ha.
  - simpl. rewrite Ha. f_equal. unfold dequeued. simpl. lia.
  - rewrite run_cons. cbn [fst snd]. unfold dequeued in *.
    rewrite fmap_cons, concat_cons, length_app, Nat2Z.inj_add.
    rewrite Z.add_assoc. apply IH.
    destruct (step_queue limits ev g) as (_ & _ & [->|[-> ->]]).
    + by rewrite Ha, wrap_add_l.
    + rewrite Ha. f_equal. simpl. lia.
Qed.

Lemma dequeued_le_enqueued limits evs :
  (length (dequeued (run limits evs start).1)
   ≤ length (enqueued (run limits evs start).1))%nat.
Proof.
  pose proof (run_queue limits evs start) as Hq.
  cbn [start mem Queue app] in Hq. rewrite Hq, length_app. lia.
Qed.

(** C9. At any point of any run in which the items enqueued so far
    are few enough to be counted by an [int], [TotalProcessed] is the
    number of items the loop has cut off the queue since the start;
    whatever happens next adds to it the number of items that event
    cuts off, so it never decreases, and that number is the size of
    the batch the server has just confirmed and zero otherwise. With a
    quota of 10, 5 items enqueued and one iteration whose submission
    the mock server answers, the queue ends empty and the counter is
    5. *)
Theorem TotalProcessed_counts_removed :
  (∀ limits evs ev,
     let rs := (run limits evs start).1 in
     let g := (run limits evs start).2 in
     let r := (step limits ev g).1 in
     let g' := (step limits ev g).2 in
     Z.of_nat (length (enqueued rs ++ arrived r)) < Int64.half →
     TotalProcessed (mem g) = Z.of_nat (length (dequeued rs)) ∧
     TotalProcessed (mem g') =
       TotalProcessed (mem g) + Z.of_nat (length (removed r)) ∧
     TotalProcessed (mem g) ≤ TotalProcessed (mem g') ∧
     removed r =
       match err r, sent r with None, Some batch => batch | _, _ => [] end) ∧
  (∀ (D : Z) (q : list Item) env,
     length q = 5%nat →
     exchange env = MockServer.HandleProcess 10 →
     early env = [] → late env = [] →
     let g := (run (mkLimits 10 D) [Request (Bound q); Tick env] start).2 in
     Queue (mem g) = [] ∧ TotalProcessed (mem g) = 5).
Proof.
  split.
  - intros limits evs ev. cbv zeta. intros Hfew.
    pose proof (run_TotalProcessed limits evs start 0 eq_refl) as Hg.
    pose proof (run_TotalProcessed limits (evs ++ [ev]) start 0 eq_refl)
      as Hg'.
    pose proof (dequeued_le_enqueued limits evs) as Hle.
    pose proof (dequeued_le_enqueued limits (evs ++ [ev])) as Hle'.
    rewrite run_app in Hg', Hle'. cbn [fst snd] in Hg', Hle'.
    change (run limits [ev] ?g) with
      (let '(r, g1) := step limits ev g in (r :: [], g1)) in Hg', Hle'.
    destruct (step limits ev (run limits evs start).2) as [r g'] eqn:Hstep.
    cbn [fst snd] in *.
    rewrite enqueued_snoc in Hle'. rewrite dequeued_snoc in Hg', Hle'.
    rewrite length_app in Hfew, Hg'. rewrite !length_app in Hle'.
    rewrite Z.add_0_l in Hg, Hg'.
    rewrite wrap_small in Hg by (unfold Int64.in_range, Int64.half in *; lia).
    rewrite wrap_small in Hg'
      by (unfold Int64.in_range, Int64.half in *; lia).
    split; [done|]. split; [lia|]. split; [lia|].
    pose proof (step_queue limits ev (run limits evs start).2) as Hs.
    rewrite Hstep in Hs. by destruct Hs as (_ & ? & _).
  - intros D q env Hlen Hx He Hl. cbv zeta.
    assert (q ≠ []) as Hq by (intros ->; done).
    rewrite !run_cons. cbn [run snd].
    assert ((step (mkLimits 10 D) (Request (Bound q)) start).2 =
            mkLoop (mkState q 0 ∅) 0 false) as ->.
    { cbn [step]. unfold HandleProcess. by rewrite Hlen. }
    cbn [step returned]. unfold default_case. cbn [mem errorsCount].
    destruct (ProcessQueue_attempt (mkLimits 10 D) env (mkState q 0 ∅))
      as (_ & _ & Hcall); [done| |].
    { cbn [processedItems]. rewrite window_eq. unfold surviving.
      by rewrite map_filter_empty, total_empty. }
    rewrite Hcall. cbn [Queue processedItems TotalProcessed].
    rewrite window_eq. unfold surviving.
    rewrite map_filter_empty, total_empty. cbn [snd].
    rewrite He, Hl, !app_nil_r, Hlen, Hx.
    change (Z.to_nat (Int64.wrap (Number (mkLimits 10 D) - 0)
                      `min` Z.of_nat 5)) with 5%nat.
    unfold MockServer.HandleProcess, MockServer.Process.
    rewrite length_take, Hlen. cbn. split; [|done].
    apply drop_ge. lia.
Qed.

(** *** The error counter *)

Lemma ProcessQueue_error limits env st :
  let r := (ProcessQueue limits env st).1 in
  let st' := (ProcessQueue limits env st).2 in
  err r ≠ None →
  Queue st ≠ [] ∧ 0 < (window limits (seen env) (processedItems st)).2 ∧
  Queue st' = Queue st ++ arrived r ∧
  TotalProcessed st' = TotalProcessed st.
Proof.
  cbv zeta. call_cases limits env st; intros Herr; try done.
  all: by rewrite <- (assoc_L (++)).
Qed.

Lemma ProcessQueue_idle limits env st :
  Queue st = [] ∨ (window limits (seen env) (processedItems st)).2 ≤ 0 →
  (ProcessQueue limits env st).1 = nothing.
Proof.
  intros Hidle. call_cases limits env st; try done.
  all: destruct Hidle; [done|lia].
Qed.

(** One live iteration: the counter goes up by one on an error and
    back to zero otherwise, and the goroutine returns when it reaches
    the threshold. *)
Lemma default_case_errorsCount limits env g :
  0 ≤ errorsCount g < threshold →
  let r := (default_case limits env g).1 in
  let g' := (default_case limits env g).2 in
  r = (ProcessQueue limits env (mem g)).1 ∧
  mem g' = (ProcessQueue limits env (mem g)).2 ∧
  errorsCount g' =
    match err r with Some _ => errorsCount g + 1 | None => 0 end ∧
  returned g' = (threshold <=? errorsCount g').
Proof.
  intros Hc. cbv zeta. unfold default_case.
  destruct (ProcessQueue limits env (mem g)) as [r st']. cbn [fst snd].
  cbn [mem errorsCount returned]. repeat split; try done.
  destruct (err r); [|done]. unfold Int64.add. apply wrap_small.
  unfold Int64.in_range, Int64.half, threshold in *. lia.
Qed.

Lemma step_returned limits ev g :
  returned g = true → returned (step limits ev g).2 = true.
Proof.
  intros Hr. destruct ev as [[msg|Data]| |env]; cbn [step]; try done.
  - unfold HandleProcess. by destruct (Z.of_nat (length Data) =? 0).
  - by rewrite Hr.
Qed.

Lemma run_returned limits evs g :
  returned g = true → returned (run limits evs g).2 = true.
Proof.
  revert g. induction evs as [|ev evs IH]; intros g Hr; [done|].
  rewrite run_cons. cbn [snd]. by apply IH, step_returned.
Qed.

Lemma run_errorsCount limits evs g :
  0 ≤ errorsCount g < threshold →
  returned (run limits evs g).2 = false →
  errorsCount (run limits evs g).2 =
    foldl (λ n r, match err r with Some _ => n + 1 | None => 0 end)
      (errorsCount g) (iterations evs (run limits evs g).1) ∧
  0 ≤ errorsCount (run limits evs g).2 < threshold.
Proof.
  revert g. induction evs as [|ev evs IH]; intros g Hc Hr; [done|].
  rewrite run_cons in Hr |- *. cbn [fst snd] in Hr |- *.
  destruct (returned (step limits ev g).2) eqn:Hr1.
  { by rewrite run_returned in Hr. }
  destruct ev as [req| |env]; cbn [iterations].
  - assert (errorsCount (step limits (Request req) g).2 = errorsCount g)
      as He.
    { cbn [step]. by destruct (HandleProcess req (mem g)). }
    rewrite <- He. apply IH; [by rewrite He|done].
  - done.
  - cbn [step] in *.
    destruct (returned g) eqn:Hg; [cbn [snd] in Hr1; congruence|].
    destruct (default_case_errorsCount limits env g Hc)
      as (_ & _ & Hec & Hret).
    rewrite Hret in Hr1. apply Z.leb_gt in Hr1.
    cbn [foldl]. rewrite <- Hec. apply IH; [|done].
    rewrite Hec in *. destruct (err _); lia.
Qed.

(** C6, as the code has it. At the top of every iteration the counter
    [errorsCount] is the number of iterations that returned an error
    since the last iteration that returned none, and it is below the
    threshold. An iteration adds one to it exactly when its call
    returns an error, which only a call that got past both tests (a
    non-empty queue, a positive limit) can do; every other iteration
    sets it to zero: the one whose submission the server confirms, and
    also the one that attempts nothing because the queue is empty or
    the limit is used up. Requests of producers leave it alone. *)
Theorem errorsCount_counts_errors_in_a_row limits evs :
  let rs := (run limits evs start).1 in
  let g := (run limits evs start).2 in
  returned g = false →
  errorsCount g = errors_in_a_row (iterations evs rs) ∧
  0 ≤ errorsCount g < threshold ∧
  (∀ env,
     let r := (step limits (Tick env) g).1 in
     let g' := (step limits (Tick env) g).2 in
     (err r ≠ None ↔ errorsCount g' = errorsCount g + 1) ∧
     (err r = None ↔ errorsCount g' = 0) ∧
     (err r ≠ None →
        Queue (mem g) ≠ [] ∧
        0 < (window limits (seen env) (processedItems (mem g))).2) ∧
     (Queue (mem g) = [] ∨
      (window limits (seen env) (processedItems (mem g))).2 ≤ 0 →
        r = nothing ∧ errorsCount g' = 0)) ∧
  (∀ req, errorsCount (step limits (Request req) g).2 = errorsCount g).
Proof.
  cbv zeta. intros Hr.
  destruct (run_errorsCount limits evs start) as [Hec Hc];
    [done|done|]. split; [done|]. split; [done|]. split.
  - intros env. cbn [step]. rewrite Hr.
    destruct (default_case_errorsCount limits env _ Hc)
      as (Hrep & Hmem & Hec' & Hret).
    rewrite Hec'. rewrite Hrep.
    unfold threshold in Hc. split; [|split; [|split]].
    + destruct (err (ProcessQueue limits env _).1); split; intros H;
        first [done | congruence | lia | exfalso; lia].
    + destruct (err (ProcessQueue limits env _).1); split; intros H;
        first [done | congruence | lia | exfalso; lia].
    + intros Herr.
      by destruct (ProcessQueue_error limits env _ Herr) as (? & ? & _).
    + intros Hidle. rewrite (ProcessQueue_idle limits env _ Hidle).
      by split.
  - intros req. cbn [step]. by destruct (HandleProcess req _).
Qed.

(** A call whose submission fails while nothing is enqueued leaves the
    queue and the counter as they were and adds at most the size of
    the queue to the counts in the map. *)
Lemma failing_call limits env st :
  0 ≤ Number limits < Int64.half →
  tracker_ok limits (processedItems st) →
  Queue st ≠ [] → early env = [] → late env = [] →
  (∀ batch, failing (exchange env batch)) →
  total (processedItems st) < Number limits →
  let r := (ProcessQueue limits env st).1 in
  let st' := (ProcessQueue limits env st).2 in
  err r ≠ None ∧ Queue st' = Queue st ∧
  TotalProcessed st' = TotalProcessed st ∧
  total (processedItems st') ≤
    total (processedItems st) + Z.of_nat (length (Queue st)).
Proof.
  intros HN Hok Hq He Hl Hx Hroom. cbv zeta.
  pose proof (window_limit limits (seen env) _ Hok) as Hlim.
  rewrite (wrap_small (Number limits)) in Hlim
    by (unfold Int64.in_range; lia).
  destruct Hok as [Hpos Hle].
  pose proof (total_filter_le
    (λ e, ¬ Int64.add e.1 (Duration limits) < seen env e.1) _ Hpos) as Hf.
  fold (surviving limits (seen env) (processedItems st)) in Hf.
  pose proof (Forall_filter_pos
    (λ e, ¬ Int64.add e.1 (Duration limits) < seen env e.1) _ Hpos) as Hp.
  fold (surviving limits (seen env) (processedItems st)) in Hp.
  destruct (ProcessQueue_attempt limits env st Hq) as (Hn & Hlen & ->);
    [lia|].
  rewrite He, Hl, !app_nil_r in *.
  match goal with |- context [exchange env ?b] =>
    specialize (Hx b); destruct (exchange env b) as [| | | | |[[] msg]] end.
  all: cbn [fst snd err Queue TotalProcessed processedItems Success] in *.
  all: try done.
  all: repeat split; try done; try lia.
  all: etrans; [by apply total_insert_le|]; lia.
Qed.

(** A stretch of iterations that all return an error. *)
Lemma run_errors limits (envs : list (@Env Item)) g :
  returned g = false → 0 ≤ errorsCount g < threshold →
  let rs := (run limits (Tick <$> envs) g).1 in
  let g' := (run limits (Tick <$> envs) g).2 in
  Forall (λ r, err r ≠ None) rs →
  errorsCount g' = errorsCount g + Z.of_nat (length envs) ∧
  errorsCount g' ≤ threshold ∧
  (returned g' = true ↔ errorsCount g' = threshold) ∧
  Queue (mem g') = Queue (mem g) ++ enqueued rs ∧
  TotalProcessed (mem g') = TotalProcessed (mem g).
Proof.
  cbv zeta. revert g. induction envs as [|env envs IH]; intros g Hr Hc Hall.
  - cbn. unfold enqueued. cbn. rewrite app_nil_r, Hr.
    repeat split; try done; lia.
  - rewrite fmap_cons, run_cons in *. cbn [fst snd] in *.
    apply Forall_cons in Hall as [Herr Hall].
    cbn [step] in *. rewrite Hr in *.
    destruct (default_case_errorsCount limits env g Hc)
      as (Hrep & Hmem & Hec & Hret).
    rewrite Hrep in Herr.
    destruct (ProcessQueue_error limits env _ Herr) as (_ & _ & Hq & Htp).
    rewrite <- Hmem in Hq, Htp. rewrite <- Hrep in Hq, Herr.
    destruct (err (default_case limits env g).1) as [e|] eqn:He; [|done].
    destruct (Z.leb_spec threshold
                (errorsCount (default_case limits env g).2)) as [Hge|Hlt].
    + destruct envs as [|env2 envs].
      * cbn. unfold enqueued. cbn. rewrite app_nil_r, Hec, Hret.
        repeat split; try done; try lia.
      * rewrite fmap_cons, run_cons in Hall. cbn [fst] in Hall.
        apply Forall_cons in Hall as [Hdead _].
        cbn [step] in Hdead. by rewrite Hret in Hdead.
    + destruct (IH (default_case limits env g).2) as (H1 & H2 & H3 & H4 & H5);
        [done|lia|done|].
      rewrite H1, H4, H5, Hec, Hq, Htp. unfold enqueued.
      rewrite fmap_cons, concat_cons, (assoc_L (++)).
      rewrite H1, Hec in H2, H3. repeat split; try done; try lia.
      * cbn [length]. lia.
      * by apply H3.
      * by apply H3.
Qed.

(** With room in the quota for every attempt, a stretch of failing
    submissions makes every iteration return an error. *)
Lemma failing_run limits (envs : list (@Env Item)) g :
  0 ≤ Number limits < Int64.half →
  returned g = false → 0 ≤ errorsCount g →
  errorsCount g + Z.of_nat (length envs) ≤ threshold →
  tracker_ok limits (processedItems (mem g)) →
  Queue (mem g) ≠ [] →
  Forall quiet_failure envs →
  total (processedItems (mem g)) +
    Z.of_nat (length (Queue (mem g))) * Z.of_nat (length envs)
    ≤ Number limits →
  Forall (λ r, err r ≠ None ∧ arrived r = [])
    (run limits (Tick <$> envs) g).1.
Proof.
  intros HN. revert g.
  induction envs as [|env envs IH]; intros g Hr H0 Hc Hok Hq Hall Hroom.
  { constructor. }
  rewrite fmap_cons, run_cons. cbn [fst snd length] in *.
  apply Forall_cons in Hall as [(He & Hl & Hx) Hall].
  assert (0 < Z.of_nat (length (Queue (mem g)))) as Hlen.
  { destruct (Queue (mem g)); [done|simpl; lia]. }
  destruct (failing_call limits env (mem g) HN Hok Hq He Hl Hx)
    as (Herr & Hq' & Htp & Htot); [nia|].
  destruct (default_case_errorsCount limits env g)
    as (Hrep & Hmem & Hec & Hret); [unfold threshold in *; lia|].
  cbn [step]. rewrite Hr. rewrite <- Hrep in Herr.
  rewrite <- Hmem in Hq', Htot.
  constructor.
  - split; [done|]. rewrite Hrep.
    destruct (ProcessQueue_attempt limits env (mem g) Hq) as (_ & _ & ->).
    { pose proof (window_limit limits (seen env) _ Hok) as Hlim.
      rewrite (wrap_small (Number limits)) in Hlim
        by (unfold Int64.in_range; lia).
      destruct Hok as [Hpos Hle].
      pose proof (total_filter_le
        (λ e, ¬ Int64.add e.1 (Duration limits) < seen env e.1) _ Hpos) as Hf.
      fold (surviving limits (seen env) (processedItems (mem g))) in Hf.
      nia. }
    rewrite He, Hl.
    by destruct (exchange env _) as [| | | | |[[] ?]].
  - destruct envs as [|env2 envs]; [constructor|].
    cbn [length] in *. apply IH; try done.
    + rewrite Hret. apply Z.leb_gt. rewrite Hec.
      destruct (err _); [|done]. unfold threshold in *. lia.
    + rewrite Hec. destruct (err _); lia.
    + rewrite Hec. destruct (err _); [|done]. cbn [length]. lia.
    + rewrite Hmem. by apply ProcessQueue_tracker_ok.
    + by rewrite Hq'.
    + rewrite Hq'. cbn [length]. nia.
Qed.

Lemma run_length limits evs g : length (run limits evs g).1 = length evs.
Proof.
  revert g. induction evs as [|ev evs IH]; intros g; [done|].
  rewrite run_cons. cbn [fst length]. by rewrite IH.
Qed.

Lemma enqueued_nothing (rs : list (@Report Item)) :
  Forall (λ r, arrived r = []) rs → enqueued rs = [].
Proof.
  unfold enqueued. induction 1 as [|r rs Hr _ IH]; [done|].
  by rewrite fmap_cons, concat_cons, Hr, IH.
Qed.

(** C1, as the code has it. The goroutine returns when [errorsCount]
    reaches 10, that is when 10 iterations in a row have returned an
    error: from a live loop with the counter at [c], a stretch of
    iterations that all return an error leaves the counter at [c] plus
    their number, and the loop has returned exactly when that is 10;
    along the stretch nothing leaves the queue and [TotalProcessed]
    stays put. Once it has returned, an iteration does nothing: no
    submission, no change of state. Any iteration that returns no
    error (a confirmed submission, or no attempt at all) puts the
    counter back to 0 and the loop goes on. With 3 items queued,
    nothing else enqueued, every submission failing and a quota of at
    least 30, so that the entries written by the failed attempts leave
    room for the next attempt, the 10 iterations all fail, the loop
    has returned after them, the 3 items are still queued and
    [TotalProcessed] is unchanged. *)
Theorem ten_errors_in_a_row_stop_the_loop :
  (∀ limits (envs : list (@Env Item)) g,
     returned g = false → 0 ≤ errorsCount g < threshold →
     let rs := (run limits (Tick <$> envs) g).1 in
     let g' := (run limits (Tick <$> envs) g).2 in
     Forall (λ r, err r ≠ None) rs →
     errorsCount g' = errorsCount g + Z.of_nat (length envs) ∧
     errorsCount g' ≤ threshold ∧
     (returned g' = true ↔ errorsCount g' = threshold) ∧
     Queue (mem g') = Queue (mem g) ++ enqueued rs ∧
     TotalProcessed (mem g') = TotalProcessed (mem g)) ∧
  (∀ limits env g,
     returned g = true → step limits (Tick env) g = (nothing, g)) ∧
  (∀ limits env g,
     returned g = false →
     err (step limits (Tick env) g).1 = None →
     errorsCount (step limits (Tick env) g).2 = 0 ∧
     returned (step limits (Tick env) g).2 = false) ∧
  (∀ (N D tp : Z) (x y z : Item) envs,
     30 ≤ N < Int64.half →
     length envs = 10%nat →
     Forall quiet_failure envs →
     let g0 := mkLoop (mkState [x; y; z] tp ∅) 0 false in
     let rs := (run (mkLimits N D) (Tick <$> envs) g0).1 in
     let g' := (run (mkLimits N D) (Tick <$> envs) g0).2 in
     Forall (λ r, err r ≠ None) rs ∧ length rs = 10%nat ∧
     returned g' = true ∧ errorsCount g' = 10 ∧
     Queue (mem g') = [x; y; z] ∧ TotalProcessed (mem g') = tp).
Proof.
  split; [|split; [|split]].
  - intros limits envs g Hr Hc. by apply run_errors.
  - intros limits env g Hr. cbn [step]. by rewrite Hr.
  - intros limits env g Hr. cbn [step]. rewrite Hr. unfold default_case.
    destruct (ProcessQueue limits env (mem g)) as [r st']. cbn [fst snd].
    intros ->. done.
  - intros N D tp x y z envs HN Hlen Hall. cbv zeta.
    set (g0 := mkLoop (mkState [x; y; z] tp ∅) 0 false).
    assert (Forall (λ r, err r ≠ None ∧ arrived r = [])
              (run (mkLimits N D) (Tick <$> envs) g0).1) as Hfail.
    { apply failing_run; cbn [g0 mem errorsCount returned Number Queue
        processedItems]; try done.
      - lia.
      - rewrite Hlen. unfold threshold. lia.
      - split; [apply map_Forall_empty|]. rewrite total_empty. lia.
      - rewrite total_empty, Hlen. cbn [length]. lia. }
    assert (Forall (λ r, err r ≠ None)
              (run (mkLimits N D) (Tick <$> envs) g0).1) as Herr.
    { eapply Forall_impl; [exact Hfail|]. by intros r [? _]. }
    assert (enqueued (run (mkLimits N D) (Tick <$> envs) g0).1 = [])
      as Henq.
    { apply enqueued_nothing. eapply Forall_impl; [exact Hfail|].
      by intros r [_ ?]. }
    destruct (run_errors (mkLimits N D) envs g0) as (H1 & H2 & H3 & H4 & H5);
      [done|done|done|].
    rewrite Hlen in H1. cbn [g0 errorsCount mem Queue TotalProcessed] in *.
    rewrite Henq in H4. rewrite run_length, length_fmap.
    repeat split; try done. apply H3. by rewrite H1.
Qed.

End Runs.

(** ** Concrete runs *)

(** C1, refuted as stated: three items are queued and every submission
    fails; after ten failed submissions with no successful one in
    between the goroutine has not returned (its counter is at 2), and
    the next iteration submits again. *)
Lemma ten_failed_submissions_without_stop :
  let res := run Sample.limits Sample.stubborn start in
  (λ r, (err r, length <$> sent r)) <$> iterations Sample.stubborn res.1 =
    [(Some DoErr, Some 3%nat); (Some DoErr, Some 3%nat);
     (Some DoErr, Some 3%nat); (Some DoErr, Some 1%nat); (None, None);
     (Some DoErr, Some 3%nat); (Some DoErr, Some 3%nat);
     (Some DoErr, Some 3%nat); (Some DoErr, Some 1%nat); (None, None);
     (Some DoErr, Some 3%nat); (Some DoErr, Some 3%nat)] ∧
  failures_since_success (iterations Sample.stubborn res.1) = 10 ∧
  returned res.2 = false ∧ errorsCount res.2 = 2 ∧
  sent (step Sample.limits (Sample.down 43) res.2).1 = Some Sample.three.
Proof. vm_compute. repeat split; reflexivity. Qed.

(** C1 on a quota of 100: ten failing iterations with three items queued
    stop the loop and leave the queue and the counter alone. *)
Lemma ten_errors_in_a_row_stop_the_loop_witness :
  30 ≤ 100 < Int64.half ∧ length Sample.ten_down = 10%nat ∧
  Forall quiet_failure Sample.ten_down ∧
  let g0 := mkLoop (mkState Sample.three 0 ∅) 0 false in
  let g' := (run (mkLimits 100 (15 * Sample.second))
               (Tick <$> Sample.ten_down) g0).2 in
  returned g' = true ∧ Queue (mem g') = Sample.three ∧
  TotalProcessed (mem g') = 0.
Proof.
  assert (30 ≤ 100 < Int64.half) as HN by (by vm_compute).
  assert (Forall quiet_failure Sample.ten_down) as Hq
    by (repeat constructor).
  split; [exact HN|]. split; [reflexivity|]. split; [exact Hq|].
  destruct (@ten_errors_in_a_row_stop_the_loop unit) as (_ & _ & _ & H).
  destruct (H 100 (15 * Sample.second) 0 () () () Sample.ten_down
              HN eq_refl Hq) as (_ & _ & Hr & _ & Hqueue & Htp).
  repeat split; assumption.
Defined.

(** C2, refuted as stated: a submission that fails in transport leaves
    a window entry behind, so that the map is not what it was before
    the call. *)
Lemma failed_submission_leaves_entry :
  let before := mkState Sample.three 0 ∅ in
  let call := ProcessQueue Sample.limits
                (Sample.at_second 1 (λ _, DoFails)) before in
  err call.1 = Some DoErr ∧
  wrote call.1 = Some (1 * Sample.second, 3) ∧
  processedItems call.2 !! (1 * Sample.second) = Some 3 ∧
  processedItems call.2 ≠ processedItems before.
Proof.
  split; [by vm_compute|]. split; [by vm_compute|]. split; [by vm_compute|].
  intros H. apply (f_equal (λ m : gmap Z Z, m !! (1 * Sample.second))) in H.
  vm_compute in H. discriminate.
Qed.

(** C2 on the failed submission above: the entry is in the map after the
    call. *)
Lemma entry_written_before_submission_witness :
  let call := ProcessQueue Sample.limits
                (Sample.at_second 1 (λ _, DoFails))
                (mkState Sample.three 0 ∅) in
  sent call.1 = Some Sample.three ∧
  processedItems call.2 =
    <[1 * Sample.second := 3]>
      (surviving Sample.limits (λ _, 1 * Sample.second) ∅).
Proof.
  assert (sent (ProcessQueue Sample.limits
                  (Sample.at_second 1 (λ _, DoFails))
                  (mkState Sample.three 0 ∅)).1 = Some Sample.three) as Hs
    by (by vm_compute).
  split; [exact Hs|].
  exact (proj2 (proj1 (entry_written_before_submission Sample.limits
                         (Sample.at_second 1 (λ _, DoFails))
                         (mkState Sample.three 0 ∅)) Sample.three Hs)).
Defined.

(** C3 on a submission lost in transport: the three items stay queued. *)
Lemma failed_call_keeps_queue_witness :
  let call := ProcessQueue Sample.limits
                (Sample.at_second 1 (λ _, DoFails))
                (mkState Sample.three 7 ∅) in
  err call.1 ≠ None ∧
  removed call.1 = [] ∧ Queue call.2 = Sample.three ++ arrived call.1 ∧
  TotalProcessed call.2 = 7.
Proof.
  assert (err (ProcessQueue Sample.limits
                 (Sample.at_second 1 (λ _, DoFails))
                 (mkState Sample.three 7 ∅)).1 ≠ None) as He
    by (by vm_compute).
  split; [exact He|].
  destruct (failed_call_keeps_queue Sample.limits
              (Sample.at_second 1 (λ _, DoFails))
              (mkState Sample.three 7 ∅) He) as (H1 & H2 & H3 & _).
  repeat split; assumption.
Defined.

(** C4 after five items have been enqueued and submitted: the window
    ending at second 2 holds at most ten items, in the map and among the
    entries written. *)
Lemma quota_never_exceeded_witness :
  let evs := [Request (Bound Sample.five); Sample.up 1] in
  let g := (run Sample.limits evs start).2 in
  0 ≤ Number Sample.limits ∧ reachable Sample.limits g ∧
  timed (Duration Sample.limits) 0 evs ∧
  total (within (Duration Sample.limits) (2 * Sample.second)
           (processedItems (mem g))) ≤ 10 ∧
  counted (Duration Sample.limits) (2 * Sample.second)
    (written (run Sample.limits evs start).1) ≤ 10.
Proof.
  assert (0 ≤ Number Sample.limits) as HN by (by vm_compute).
  assert (reachable Sample.limits
            (run Sample.limits [Request (Bound Sample.five); Sample.up 1]
               start).2) as Hr by (by eexists).
  assert (timed (Duration Sample.limits) 0
            [Request (Bound Sample.five); Sample.up 1]) as Ht.
  { cbn [timed Sample.up Sample.at_second stamp seen].
    split; [by vm_compute|]. split; [intros _; lia|].
    split; [by vm_compute|done]. }
  split; [exact HN|]. split; [exact Hr|]. split; [exact Ht|].
  destruct (@quota_never_exceeded unit Sample.limits HN) as [Hstate Hrun].
  split.
  - exact (proj1 (Hstate _ Hr) (2 * Sample.second)).
  - exact (Hrun _ 0 (2 * Sample.second) Ht).
Defined.

(** C6, refuted as stated: after four failed submissions an iteration
    that attempts nothing (the quota is used up) puts the counter back
    to 0, while four failed attempts have been made since the last
    successful submission. *)
Lemma idle_iteration_resets_errorsCount :
  let before := run Sample.limits (take 5 Sample.short) start in
  let after := run Sample.limits Sample.short start in
  errorsCount before.2 = 4 ∧
  last after.1 = Some nothing ∧
  errorsCount after.2 = 0 ∧
  failures_since_success (iterations Sample.short after.1) = 4 ∧
  returned after.2 = false.
Proof. vm_compute. repeat split; reflexivity. Qed.

(** C6 after the four failed attempts of [Sample.short]. *)
Lemma errorsCount_counts_errors_in_a_row_witness :
  let res := run Sample.limits (take 5 Sample.short) start in
  returned res.2 = false ∧
  errorsCount res.2 = errors_in_a_row (iterations (take 5 Sample.short) res.1).
Proof.
  assert (returned (run Sample.limits (take 5 Sample.short) start).2 = false)
    as Hr by (by vm_compute).
  split; [exact Hr|].
  exact (proj1 (errorsCount_counts_errors_in_a_row Sample.limits
                  (take 5 Sample.short) Hr)).
Defined.

(** C7 on 25 queued items and an empty map: the capacity is the whole
    quota and 10 items are submitted. *)
Lemma batch_is_remaining_capacity_witness :
  let st := mkState (replicate 25 ()) 0 ∅ in
  let env := Sample.at_second 1 (MockServer.HandleProcess 10) in
  0 ≤ Number Sample.limits < Int64.half ∧
  tracker_ok Sample.limits (processedItems st) ∧
  stamps_fit (Duration Sample.limits) (processedItems st) ∧
  sent (ProcessQueue Sample.limits env st).1 = Some (replicate 10 ()) ∧
  RemainingCapacity Sample.limits (seen env) (processedItems st)
    = Number Sample.limits -
      total (unexpired (Duration Sample.limits) (seen env) (processedItems st)) ∧
  0 < RemainingCapacity Sample.limits (seen env) (processedItems st).
Proof.
  set (st := mkState (replicate 25 ()) 0 ∅).
  set (env := Sample.at_second 1 (MockServer.HandleProcess 10)).
  assert (0 ≤ Number Sample.limits < Int64.half) as HN by (by vm_compute).
  assert (tracker_ok Sample.limits (processedItems st)) as Hok.
  { split; [apply map_Forall_empty|by vm_compute]. }
  assert (stamps_fit (Duration Sample.limits) (processedItems st)) as Hfit
    by apply map_Forall_empty.
  assert (sent (ProcessQueue Sample.limits env st).1 = Some (replicate 10 ()))
    as Hs by (by vm_compute).
  split; [exact HN|]. split; [exact Hok|]. split; [exact Hfit|].
  split; [exact Hs|].
  destruct (proj1 (@batch_is_remaining_capacity unit) Sample.limits env st
              HN Hok Hfit) as (_ & Hrem & Hsent & _).
  split; [exact Hrem|]. exact (proj1 (Hsent _ Hs)).
Defined.

(** C8 on an empty and on a non-empty list. *)
Lemma HandleProcess_rejects_empty_only_witness :
  let st := mkState Sample.three 4 ∅ in
  (HandleProcess (Bound []) st).1 =
    mkReply StatusBadRequest (mkResponse false "No items provided") ∧
  (HandleProcess (Bound []) st).2 = st ∧
  Queue (HandleProcess (Bound Sample.five) st).2 = Sample.three ++ Sample.five.
Proof.
  set (st := mkState Sample.three 4 ∅).
  destruct (HandleProcess_rejects_empty_only [] st) as (_ & He & _).
  destruct (HandleProcess_rejects_empty_only Sample.five st)
    as (_ & _ & Hne & _).
  destruct (He eq_refl) as [H1 H2].
  destruct (Hne ltac:(discriminate)) as (_ & H3 & _).
  repeat split; assumption.
Defined.

(** C9 on five items enqueued and then confirmed by the mock server. *)
Lemma TotalProcessed_counts_removed_witness :
  let res := run Sample.limits [Request (Bound Sample.five)] start in
  let next := step Sample.limits (Sample.up 1) res.2 in
  Z.of_nat (length (enqueued res.1 ++ arrived next.1)) < Int64.half ∧
  TotalProcessed (mem res.2) = Z.of_nat (length (dequeued res.1)) ∧
  TotalProcessed (mem next.2) =
    TotalProcessed (mem res.2) + Z.of_nat (length (removed next.1)) ∧
  length (removed next.1) = 5%nat.
Proof.
  assert (Z.of_nat
            (length
               (enqueued (run Sample.limits [Request (Bound Sample.five)]
                            start).1 ++
                arrived (step Sample.limits (Sample.up 1)
                           (run Sample.limits [Request (Bound Sample.five)]
                              start).2).1)) < Int64.half) as Hfew
    by (by vm_compute).
  split; [exact Hfew|].
  destruct (proj1 (@TotalProcessed_counts_removed unit) Sample.limits
              [Request (Bound Sample.five)] (Sample.up 1) Hfew)
    as (H1 & H2 & _).
  split; [exact H1|]. split; [exact H2|]. reflexivity.
Defined.

(** C10 with three items arriving while the submission of five is in
    flight: the five are cut off, the three stay. *)
Lemma confirmed_call_cuts_submitted_prefix_witness :
  let st := mkState Sample.five 0 ∅ in
  let env := mkEnv (λ _, Sample.second) [] Sample.second Sample.three
               (MockServer.HandleProcess 10) in
  let call := ProcessQueue Sample.limits env st in
  err call.1 = None ∧ sent call.1 = Some Sample.five ∧
  removed call.1 = Sample.five ∧
  Queue call.2 = drop (length Sample.five) (Sample.five ++ []) ++ Sample.three.
Proof.
  set (st := mkState Sample.five 0 ∅).
  set (env := mkEnv (λ _, Sample.second) [] Sample.second Sample.three
                (MockServer.HandleProcess 10)).
  assert (err (ProcessQueue Sample.limits env st).1 = None) as He
    by (by vm_compute).
  assert (sent (ProcessQueue Sample.limits env st).1 = Some Sample.five) as Hs
    by (by vm_compute).
  split; [exact He|]. split; [exact Hs|].
  destruct (confirmed_call_cuts_submitted_prefix Sample.limits env st
              Sample.five He Hs) as (H1 & _ & H3).
  split; [exact H1|exact H3].
Defined.

(** ** Further properties of the client and the mock server *)

Lemma size_le_total (m : gmap Z Z) :
  map_Forall (λ _ c, 0 < c) m → Z.of_nat (size m) ≤ total m.
Proof.
  induction m as [|k c m Hk IH] using map_ind; intros Hpos.
  - by rewrite map_size_empty, total_empty.
  - apply map_Forall_insert in Hpos as [Hc Hm]; [|done].
    rewrite map_size_insert_None, total_insert_fresh by done.
    specialize (IH Hm). lia.
Qed.

Lemma count_le_total (m : gmap Z Z) k c :
  map_Forall (λ _ c, 0 < c) m → m !! k = Some c → c ≤ total m.
Proof.
  intros Hpos Hk. rewrite (total_delete m k c) by done.
  assert (0 ≤ total (delete k m)); [|lia]. apply total_nonneg.
  intros j x Hj. apply lookup_delete_Some in Hj as [_ Hj]. by apply (Hpos j x).
Qed.

(** Dropping at an earlier clock what has aged out does not change what
    the loop finds at a later clock. *)
Lemma surviving_surviving limits now now' (m : gmap Z Z) :
  (∀ ts, now ts ≤ now' ts) →
  surviving limits now' (surviving limits now m) = surviving limits now' m.
Proof.
  intros Hle. unfold surviving. rewrite map_filter_filter.
  apply map_filter_ext. intros ts c _. cbn. specialize (Hle ts).
  split; [by intros [? _]|]. intros Hk. split; [done|lia].
Qed.

Section Further.

Context {Item : Type}.
Implicit Types (st : @State Item) (env : @Env Item) (g : @Loop Item)
  (ev : @Event Item) (evs : list (@Event Item)) (batch : list Item).

(** X1. Whatever the state and the inputs, a batch handed to
    [client.Do] is never empty, it is the head of the queue as it is
    under the lock of line 223, item for item, and it is no longer than
    the limit the loop over the map has left. *)
Theorem submitted_batch_is_nonempty_head limits env st batch :
  sent (ProcessQueue limits env st).1 = Some batch →
  batch ≠ [] ∧ Queue st ≠ [] ∧
  take (length batch) (Queue st ++ early env) = batch ∧
  Z.of_nat (length batch) ≤
    (window limits (seen env) (processedItems st)).2.
Proof.
  call_cases limits env st; intros Hb; simplify_eq.
  all: split; [intros Hnil; rewrite Hnil in Hlen; simpl in Hlen; lia|].
  all: split; [done|]. all: split; [|lia].
  all: f_equal; lia.
Qed.

(** X2. In every state the process can reach the window map holds at
    most as many entries as the quota has items, and every count in it
    lies between 1 and the quota. *)
Theorem window_map_is_bounded limits g :
  0 ≤ Number limits → reachable limits g →
  Z.of_nat (size (processedItems (mem g))) ≤ Number limits ∧
  ∀ ts c, processedItems (mem g) !! ts = Some c → 1 ≤ c ≤ Number limits.
Proof.
  intros HN Hreach.
  destruct (reachable_tracker_ok limits g Hreach) as [Hpos Hle].
  pose proof (wrap_le_nonneg _ HN). split.
  - pose proof (size_le_total _ Hpos). lia.
  - intros ts c Hts. pose proof (count_le_total _ ts c Hpos Hts).
    specialize (Hpos ts c Hts). simpl in Hpos. lia.
Qed.

(** X3. Deletion from the map is lazy and it does not show: a call
    made on a map from which the entries aged out at an earlier clock
    have already been dropped reports what the call made on the
    unpruned map reports, and leaves the state that call leaves (when
    the queue is empty the call returns at once and leaves either map
    as it found it). *)
Theorem earlier_pruning_does_not_show limits env now st :
  (∀ ts, now ts ≤ seen env ts) →
  let pruned :=
    mkState (Queue st) (TotalProcessed st)
      (surviving limits now (processedItems st)) in
  (ProcessQueue limits env pruned).1 = (ProcessQueue limits env st).1 ∧
  (Queue st ≠ [] →
   (ProcessQueue limits env pruned).2 = (ProcessQueue limits env st).2).
Proof.
  intros Hle pruned.
  assert (window limits (seen env) (processedItems pruned) =
          window limits (seen env) (processedItems st)) as Hw.
  { rewrite !window_eq. cbn [pruned processedItems].
    by rewrite surviving_surviving. }
  unfold ProcessQueue. rewrite Hw. cbn [pruned Queue TotalProcessed].
  destruct (Z.eqb_spec (Z.of_nat (length (Queue st))) 0) as [H0|H0].
  - split; [done|]. intros Hq. destruct (Queue st); [done|simpl in H0; lia].
  - done.
Qed.

(** X4. Waiting never costs capacity: read at a later clock, the map
    keeps no entry it would not have kept at the earlier one, and the
    limit the loop arrives at is at least what it was. *)
Theorem waiting_never_reduces_limit limits now now' (m : gmap Z Z) :
  tracker_ok limits m → (∀ ts, now ts ≤ now' ts) →
  (window limits now' m).1 ⊆ (window limits now m).1 ∧
  (window limits now m).2 ≤ (window limits now' m).2.
Proof.
  intros Hok Hle. rewrite !window_limit by done. rewrite !window_eq.
  cbn [fst]. rewrite <- (surviving_surviving limits now now' m Hle).
  split.
  - apply map_filter_subseteq.
  - assert (total (surviving limits now' (surviving limits now m)) ≤
            total (surviving limits now m)); [|lia].
    apply total_filter_le. apply Forall_filter_pos. by destruct Hok.
Qed.

(** X5. A call changes the map only by dropping entries that have aged
    out and by writing its own: an entry found after the call is the
    one the call wrote or was there before with the same count, and an
    entry that is gone after the call had aged out at the clock read
    for it. *)
Theorem map_changes_only_by_ageing_and_writing limits env st :
  let r := (ProcessQueue limits env st).1 in
  let st' := (ProcessQueue limits env st).2 in
  (∀ ts c, processedItems st' !! ts = Some c →
     wrote r = Some (ts, c) ∨ processedItems st !! ts = Some c) ∧
  (∀ ts c, processedItems st !! ts = Some c →
     processedItems st' !! ts = None →
     Int64.add ts (Duration limits) < seen env ts ∧ Queue st ≠ []).
Proof.
  cbv zeta.
  assert (∀ ts c, surviving limits (seen env) (processedItems st) !! ts
                  = Some c → processedItems st !! ts = Some c) as Hsub.
  { intros ts c H. by apply map_lookup_filter_Some in H as [? _]. }
  assert (∀ ts c, processedItems st !! ts = Some c →
            surviving limits (seen env) (processedItems st) !! ts = None →
            Int64.add ts (Duration limits) < seen env ts) as Hgone.
  { intros ts c Hin Hout. unfold surviving in Hout.
    rewrite map_lookup_filter_None in Hout.
    destruct Hout as [Hout|Hout]; [congruence|].
    specialize (Hout c Hin). cbn in Hout. lia. }
  call_cases limits env st.
  all: split; [intros ts c Hts|intros ts c Hin Hout].
  all: try (right; by auto).
  all: try (split; [by eauto|done]).
  all: try congruence.
  all: try (apply lookup_insert_Some in Hts as [[<- <-]|[_ Hts]];
            [by left|right; by auto]).
  all: apply lookup_insert_None in Hout as [Hout _];
    (split; [by eauto|done]).
Qed.

(** X6. The map is keyed by the stamp alone. A call that writes under
    a stamp leaves its own count there, and the counts of the map add
    up to those of the surviving entries plus the new count minus the
    count that survived under the same stamp, if there was one: an
    earlier entry with an equal stamp is forgotten. *)
Theorem equal_stamp_is_overwritten limits env st s n :
  wrote (ProcessQueue limits env st).1 = Some (s, n) →
  let kept := surviving limits (seen env) (processedItems st) in
  let m' := processedItems (ProcessQueue limits env st).2 in
  s = stamp env ∧ m' !! s = Some n ∧
  total m' = total kept + n - default 0 (kept !! s).
Proof.
  intros Hw kept m'. subst kept m'. revert Hw.
  call_cases limits env st; intros Hwr; simplify_eq.
  all: split; [done|]; split; [apply lookup_insert_eq|].
  all: destruct (surviving limits (seen env) (processedItems st)
                   !! stamp env) as [c|] eqn:Hs; cbn [default]; unfold id.
  all: try (rewrite total_insert_fresh by done; lia).
  all: rewrite <- insert_delete_eq, total_insert_fresh
    by apply lookup_delete_eq.
  all: rewrite (total_delete _ _ _ Hs); lia.
Qed.

(** *** The client against the mock server *)

Lemma served_call limits env st :
  tracker_ok limits (processedItems st) →
  exchange env = MockServer.HandleProcess (Number limits) →
  err (ProcessQueue limits env st).1 = None.
Proof.
  intros Hok Hx. destruct (nil_or_not (Queue st)) as [Hq|Hq].
  { by rewrite ProcessQueue_empty. }
  destruct (Z.le_gt_cases (window limits (seen env) (processedItems st)).2 0)
    as [Hw|Hw].
  { by rewrite ProcessQueue_exhausted. }
  destruct (ProcessQueue_attempt limits env st Hq Hw) as (Hn & Hlen & ->).
  rewrite Hx. unfold MockServer.HandleProcess, MockServer.Process.
  rewrite Hlen.
  pose proof (window_limit limits (seen env) _ Hok) as Hlim.
  pose proof (surviving_ok limits (seen env) _ Hok) as [Hpos _].
  apply total_nonneg in Hpos.
  destruct (Z.ltb_spec (Int64.wrap (Number limits))
              ((window limits (seen env) (processedItems st)).2
               `min` Z.of_nat (length (Queue st ++ early env))));
    [lia|done].
Qed.

Lemma served_run limits evs g :
  tracker_ok limits (processedItems (mem g)) → errorsCount g = 0 →
  served (Number limits) evs →
  Forall (λ r, err r = None) (run limits evs g).1 ∧
  errorsCount (run limits evs g).2 = 0 ∧
  (returned (run limits evs g).2 = true → returned g = true ∨ Stop ∈ evs).
Proof.
  revert g. induction evs as [|ev evs IH]; intros g Hok Hec Hserved.
  { cbn. split; [constructor|]. split; [done|]. by left. }
  apply Forall_cons in Hserved as [Hev Hserved].
  rewrite run_cons. cbn [fst snd].
  pose proof (step_tracker_ok limits ev g Hok) as Hok'.
  assert (err (step limits ev g).1 = None ∧
          errorsCount (step limits ev g).2 = 0 ∧
          (returned (step limits ev g).2 = true →
           returned g = true ∨ ev = Stop)) as (He & Hec' & Hret).
  { destruct ev as [req| |env]; cbn [step].
    - destruct (HandleProcess req (mem g)). cbn. repeat split; try done.
      by left.
    - cbn. repeat split; try done. by right.
    - destruct (returned g) eqn:Hr; [cbn; repeat split; try done; by left|].
      pose proof (served_call limits env (mem g) Hok Hev) as Hnone.
      unfold default_case.
      destruct (ProcessQueue limits env (mem g)) as [r st']. cbn in *.
      rewrite Hnone. cbn. by repeat split. }
  destruct (IH _ Hok' Hec' Hserved) as (Hall & Hec'' & Hret').
  split; [by constructor|]. split; [done|].
  intros Hr. destruct (Hret' Hr) as [Hr1|Hstop].
  - destruct (Hret Hr1) as [?| ->]; [by left|right; left].
  - right. by right.
Qed.

(** X7. A client that has fetched its limits from the mock server and
    whose submissions that server answers is never blocked: no
    iteration returns an error, the error counter stays at zero, and
    the loop ends only on a stop request. *)
Theorem mock_server_never_blocks (N D : Z) evs :
  served N evs →
  let limits := MockLimits.HandleGetLimits N D in
  let started := @RunProcess Item (Fetched limits) in
  let rs := (run limits evs started.2).1 in
  let g := (run limits evs started.2).2 in
  started.1 = Some limits ∧ Number limits = N ∧ Duration limits = D ∧
  Forall (λ r, err r = None) rs ∧
  errorsCount g = 0 ∧
  (returned g = true → Stop ∈ evs).
Proof.
  intros Hserved. cbv zeta. cbn [RunProcess fst snd MockLimits.HandleGetLimits
    MockLimits.GetLimits Number Duration].
  split; [done|]. split; [done|]. split; [done|].
  destruct (served_run (mkLimits N D) evs start) as (Hall & Hec & Hret);
    try done.
  { cbn [start mem processedItems]. split; [apply map_Forall_empty|].
    rewrite total_empty. lia. }
  split; [done|]. split; [done|]. intros Hr. by destruct (Hret Hr).
Qed.

(** X8. The mock server's check, [len(batch) > int(BatchLengthLimit)]:
    with a limit that fits an [int] it lets through exactly the batches
    of at most that many items; whatever the limit, a batch that passes
    still passes with items taken off its end; and with a limit of
    2^63 or more, which becomes negative as an [int], every batch is
    blocked, the empty one too. *)
Theorem mock_Process_blocks_long_batches (N : Z) batch :
  (0 ≤ N < Int64.half →
     (MockServer.Process N batch = None ↔ Z.of_nat (length batch) ≤ N)) ∧
  (∀ rest : list Item,
     MockServer.Process N (batch ++ rest) = None →
     MockServer.Process N batch = None) ∧
  (Int64.half ≤ N < Int64.modulus →
     MockServer.Process N batch = Some MockServer.ErrBlocked ∧
     MockServer.Process N (@nil Item) = Some MockServer.ErrBlocked).
Proof.
  unfold MockServer.Process. split; [|split].
  - intros HN. rewrite wrap_small by (unfold Int64.in_range; lia).
    destruct (Z.ltb_spec N (Z.of_nat (length batch))); split; try done; lia.
  - intros rest. rewrite length_app.
    destruct (Z.ltb_spec (Int64.wrap N)
                (Z.of_nat (length batch + length rest))); [done|].
    intros _.
    destruct (Z.ltb_spec (Int64.wrap N) (Z.of_nat (length batch)));
      [lia|done].
  - intros HN.
    assert (Int64.wrap N < 0) as Hneg.
    { unfold Int64.wrap, Int64.half, Int64.modulus in *.
      replace (N + 2 ^ 63) with (N - 2 ^ 63 + 1 * 2 ^ 64) by lia.
      rewrite Z_mod_plus_full, Z.mod_small; lia. }
    split.
    + destruct (Z.ltb_spec (Int64.wrap N) (Z.of_nat (length batch)));
        [done|lia].
    + cbn [length]. destruct (Z.ltb_spec (Int64.wrap N) (Z.of_nat 0));
        [done|lia].
Qed.

(** *** The process without a live goroutine *)

Lemma frozen_step limits ev g :
  returned g = true →
  let r := (step limits ev g).1 in
  let g' := (step limits ev g).2 in
  returned g' = true ∧ errorsCount g' = errorsCount g ∧
  TotalProcessed (mem g') = TotalProcessed (mem g) ∧
  processedItems (mem g') = processedItems (mem g) ∧
  Queue (mem g') = Queue (mem g) ++ arrived r ∧
  sent r = None ∧ removed r = [] ∧ wrote r = None.
Proof.
  intros Hr. cbv zeta. destruct ev as [[msg|Data]| |env]; cbn [step].
  - cbn. by rewrite app_nil_r.
  - unfold HandleProcess. destruct (Z.of_nat (length Data) =? 0); cbn;
      by rewrite ?app_nil_r.
  - cbn. by rewrite app_nil_r.
  - rewrite Hr. cbn. by rewrite app_nil_r.
Qed.

(** X9. Without a live goroutine nothing is processed. Once the
    goroutine has returned, on a stop request or on ten errors in a
    row, no event brings it back: nothing is submitted or cut off the
    queue any more, [TotalProcessed], the map and the error counter
    stay as they are, while producers' requests are still accepted and
    pile up at the end of the queue in their order. The same holds
    when the limits cannot be fetched: [RunProcess] then returns before
    the [go] statement, whatever call failed, and the process serves
    requests with an ever growing queue and [TotalProcessed] at zero. *)
Theorem without_goroutine_nothing_is_processed limits evs :
  (∀ g, returned g = true →
     let rs := (run limits evs g).1 in
     let g' := (run limits evs g).2 in
     returned g' = true ∧ errorsCount g' = errorsCount g ∧
     TotalProcessed (mem g') = TotalProcessed (mem g) ∧
     processedItems (mem g') = processedItems (mem g) ∧
     Queue (mem g') = Queue (mem g) ++ enqueued rs ∧
     Forall (λ r, sent r = None ∧ removed r = [] ∧ wrote r = None) rs) ∧
  (∀ f : Fetch, (∀ fetched, f ≠ Fetched fetched) →
     let started := @RunProcess Item f in
     let rs := (run limits evs started.2).1 in
     let g' := (run limits evs started.2).2 in
     started.1 = None ∧
     Queue (mem g') = enqueued rs ∧
     TotalProcessed (mem g') = 0 ∧
     Forall (λ r, sent r = None ∧ removed r = [] ∧ wrote r = None) rs ∧
     HandleStop g' = None).
Proof.
  assert (∀ g, returned g = true →
     returned (run limits evs g).2 = true ∧
     errorsCount (run limits evs g).2 = errorsCount g ∧
     TotalProcessed (mem (run limits evs g).2) = TotalProcessed (mem g) ∧
     processedItems (mem (run limits evs g).2) = processedItems (mem g) ∧
     Queue (mem (run limits evs g).2) =
       Queue (mem g) ++ enqueued (run limits evs g).1 ∧
     Forall (λ r, sent r = None ∧ removed r = [] ∧ wrote r = None)
       (run limits evs g).1) as Hfrozen.
  { induction evs as [|ev evs IH]; intros g Hr.
    { cbn. unfold enqueued. cbn. rewrite app_nil_r. repeat split; try done. }
    rewrite run_cons. cbn [fst snd].
    destruct (frozen_step limits ev g Hr)
      as (Hr1 & Hec & Htp & Hm & Hq & Hs & Hrem & Hw).
    destruct (IH _ Hr1) as (Hr2 & Hec2 & Htp2 & Hm2 & Hq2 & Hall).
    unfold enqueued in *. rewrite fmap_cons, concat_cons, (assoc_L (++)).
    rewrite Hr2, Hec2, Htp2, Hm2, Hq2, Hec, Htp, Hm, Hq.
    repeat split; try done. by constructor. }
  split; [exact Hfrozen|].
  intros f Hf. cbv zeta.
  assert (@RunProcess Item f = (None, no_goroutine)) as ->.
  { destruct f as [| | | |fetched]; try done. by destruct (Hf fetched). }
  cbn [fst snd].
  destruct (Hfrozen no_goroutine eq_refl) as (Hr & _ & Htp & _ & Hq & Hall).
  cbn [no_goroutine mem Queue TotalProcessed app] in *.
  unfold HandleStop. rewrite Hr. done.
Qed.

(** X10. A stop request is answered only while the goroutine is alive:
    then the answer is 200, the goroutine returns with the state as it
    was, and no later stop request is ever answered; neither is one
    made after the goroutine has returned, in particular after it gave
    up on ten iterations in a row that returned an error. *)
Theorem stop_is_answered_while_the_loop_lives limits g :
  (returned g = false →
     HandleStop g = Some (StatusOK, (step limits Stop g).2) ∧
     mem (step limits Stop g).2 = mem g ∧
     ∀ evs, HandleStop (run limits evs (step limits Stop g).2).2 = None) ∧
  (returned g = true →
     ∀ evs, HandleStop (run limits evs g).2 = None) ∧
  (∀ envs : list (@Env Item),
     returned g = false → errorsCount g = 0 →
     length envs = 10%nat →
     Forall (λ r, err r ≠ None) (run limits (Tick <$> envs) g).1 →
     ∀ evs,
       HandleStop (run limits evs (run limits (Tick <$> envs) g).2).2 = None).
Proof.
  assert (∀ g0 evs, returned g0 = true →
            HandleStop (run limits evs g0).2 = None) as Hdead.
  { intros g0 evs Hr. unfold HandleStop. by rewrite run_returned. }
  split; [|split].
  - intros Hr. unfold HandleStop. rewrite Hr. cbn [step snd mem].
    split; [done|]. split; [done|]. intros evs. by apply Hdead.
  - intros Hr evs. by apply Hdead.
  - intros envs Hr Hec Hlen Hall evs. apply Hdead.
    destruct (run_errors limits envs g Hr) as (H1 & _ & H3 & _); [|done|].
    { rewrite Hec. unfold threshold. lia. }
    apply H3. rewrite H1, Hec, Hlen. done.
Qed.

(** X11. What [HandleTotalProcessed] answers, at any point of any run
    in which the items accepted so far are few enough to be counted by
    an [int]: a 200 whose figure, added to the length of the queue, is
    the number of items accepted by [HandleProcess] since the start. *)
Theorem total_and_queue_account_for_accepted limits evs :
  let rs := (run limits evs start).1 in
  let g := (run limits evs start).2 in
  Z.of_nat (length (enqueued rs)) < Int64.half →
  (HandleTotalProcessed (mem g)).1 = StatusOK ∧
  (HandleTotalProcessed (mem g)).2 + Z.of_nat (length (Queue (mem g))) =
    Z.of_nat (length (enqueued rs)) ∧
  0 ≤ (HandleTotalProcessed (mem g)).2.
Proof.
  cbv zeta. intros Hfew. unfold HandleTotalProcessed. cbn [fst snd].
  pose proof (run_TotalProcessed limits evs start 0 eq_refl) as Htp.
  pose proof (run_queue limits evs start) as Hq.
  cbn [start mem Queue app] in Hq. rewrite Hq, length_app in Hfew |- *.
  rewrite Z.add_0_l, wrap_small in Htp
    by (unfold Int64.in_range, Int64.half in *; lia).
  rewrite Htp. repeat split; try done; lia.
Qed.

Lemma run_frozen_errorsCount limits evs g :
  returned g = true → errorsCount (run limits evs g).2 = errorsCount g.
Proof.
  revert g. induction evs as [|ev evs IH]; intros g Hr; [done|].
  rewrite run_cons. cbn [snd].
  destruct (frozen_step limits ev g Hr) as (Hr1 & Hec & _).
  by rewrite IH.
Qed.

(** X12. The error counter in every state the process can reach: it
    lies between 0 and 10, it is 10 only once the goroutine has
    returned, and a goroutine that has returned without any stop
    request has it at 10. *)
Theorem errorsCount_stays_within_threshold limits evs :
  let g := (run limits evs start).2 in
  0 ≤ errorsCount g ≤ threshold ∧
  (errorsCount g = threshold → returned g = true) ∧
  (returned g = true → Stop ∈ evs ∨ errorsCount g = threshold).
Proof.
  cbv zeta.
  assert (∀ g0,
    0 ≤ errorsCount g0 ≤ threshold →
    (errorsCount g0 = threshold → returned g0 = true) →
    let g := (run limits evs g0).2 in
    0 ≤ errorsCount g ≤ threshold ∧
    (errorsCount g = threshold → returned g = true) ∧
    (returned g = true →
       returned g0 = true ∨ Stop ∈ evs ∨ errorsCount g = threshold)) as Hgen.
  { induction evs as [|ev evs IH]; intros g0 Hc Hten; cbv zeta.
    { cbn. split; [done|]. split; [done|]. by left. }
    rewrite run_cons. cbn [snd].
    assert (0 ≤ errorsCount (step limits ev g0).2 ≤ threshold ∧
            (errorsCount (step limits ev g0).2 = threshold →
             returned (step limits ev g0).2 = true) ∧
            (returned (step limits ev g0).2 = true →
             returned g0 = true ∨ ev = Stop ∨
             errorsCount (step limits ev g0).2 = threshold))
      as (Hc1 & Hten1 & Hret1).
    { destruct ev as [req| |env]; cbn [step].
      - destruct (HandleProcess req (mem g0)). cbn.
        split; [done|]. split; [done|]. by left.
      - cbn. split; [done|]. split; [done|]. intros _. right. by left.
      - destruct (returned g0) eqn:Hr.
        { cbn. split; [done|]. split; [done|]. by left. }
        assert (0 ≤ errorsCount g0 < threshold) as Hlt.
        { destruct (decide (errorsCount g0 = threshold)) as [He|He];
            [specialize (Hten He); congruence|lia]. }
        destruct (default_case_errorsCount limits env g0 Hlt)
          as (_ & _ & Hec & Hret).
        rewrite Hret, Hec.
        destruct (err (default_case limits env g0).1).
        + split; [lia|]. split.
          * intros ->. by apply Z.leb_le.
          * intros Hge%Z.leb_le. right. right. lia.
        + unfold threshold. split; [lia|]. split; [lia|].
          intros Hge%Z.leb_le. lia. }
    destruct (IH _ Hc1 Hten1) as (Hc2 & Hten2 & Hret2).
    split; [done|]. split; [done|]. intros Hr.
    destruct (Hret2 Hr) as [Hr1|[Hstop|He]].
    - destruct (Hret1 Hr1) as [?|[->|He]]; [by left|right; left; left|].
      right. right.
      by rewrite run_frozen_errorsCount.
    - right. left. by right.
    - by right; right. }
  destruct (Hgen start) as (Hc & Hten & Hret).
  { cbn. unfold threshold. lia. }
  { cbn. unfold threshold. lia. }
  split; [done|]. split; [done|]. intros Hr.
  destruct (Hret Hr) as [?|[?|?]]; [done|by left|by right].
Qed.

(** *** Draining a long queue, one window after the other *)

Lemma take_min (l : list Item) (N : Z) :
  0 ≤ N →
  let n := Z.min N (Z.of_nat (length l)) in
  take (Z.to_nat n) l = take (Z.to_nat N) l ∧
  drop (Z.to_nat n) l = drop (Z.to_nat N) l ∧
  n = Z.of_nat (length (take (Z.to_nat N) l)).
Proof.
  intros HN n. subst n. rewrite length_take.
  destruct (Z.le_gt_cases N (Z.of_nat (length l))) as [Hle|Hgt].
  - rewrite Z.min_l by done. repeat split; lia.
  - rewrite Z.min_r by lia. rewrite Nat2Z.id.
    rewrite !take_ge, !drop_ge by lia. repeat split; lia.
Qed.

(** An iteration that finds every entry of the map aged out, the
    server willing and nobody enqueueing: it submits and cuts off the
    first [N] items of the queue, or all of them if they are fewer. *)
Lemma fresh_call limits env st T :
  0 < Number limits < Int64.half →
  Queue st ≠ [] →
  (∀ ts c, processedItems st !! ts = Some c → Int64.in_range ts ∧ ts ≤ T) →
  early env = [] → late env = [] →
  exchange env = MockServer.HandleProcess (Number limits) →
  (∀ ts, Int64.in_range ts → ts ≤ T →
         Int64.add ts (Duration limits) < seen env ts) →
  let batch := take (Z.to_nat (Number limits)) (Queue st) in
  let entry := (stamp env, Z.of_nat (length batch)) in
  ProcessQueue limits env st =
  (mkReport None (Some batch) batch [] (Some entry),
   mkState (drop (Z.to_nat (Number limits)) (Queue st))
     (Int64.add (TotalProcessed st) (Z.of_nat (length batch)))
     {[stamp env := Z.of_nat (length batch)]}).
Proof.
  intros HN Hq Hkeys He Hl Hx Hold. cbv zeta.
  assert (surviving limits (seen env) (processedItems st) = ∅) as Hs.
  { apply map_eq. intros k. rewrite lookup_empty. unfold surviving.
    apply map_lookup_filter_None. right. intros c Hk. cbn.
    destruct (Hkeys k c Hk) as [Hin HkT]. specialize (Hold k Hin HkT). lia. }
  assert (window limits (seen env) (processedItems st) = (∅, Number limits))
    as Hw.
  { rewrite window_eq, Hs, total_empty, Z.sub_0_r.
    f_equal. apply wrap_small. unfold Int64.in_range. lia. }
  destruct (ProcessQueue_attempt limits env st Hq) as (_ & _ & ->).
  { rewrite Hw. cbn. lia. }
  rewrite Hw, Hs, He, Hl, !app_nil_r. cbn [snd].
  destruct (take_min (Queue st) (Number limits)) as (Ht & Hd & Hn); [lia|].
  rewrite Ht, Hd, Hn, insert_empty, Hx.
  unfold MockServer.HandleProcess, MockServer.Process.
  rewrite wrap_small by (unfold Int64.in_range; lia).
  rewrite length_take.
  destruct (Z.ltb_spec (Number limits)
              (Z.of_nat (Z.to_nat (Number limits) `min` length (Queue st))));
    [lia|done].
Qed.

Lemma dequeued_cons (r : @Report Item) rs :
  dequeued (r :: rs) = removed r ++ dequeued rs.
Proof. done. Qed.

(** X13. Draining a queue against a willing server, one batch per
    window: iterations that each find the entry of the one before aged
    out (nobody enqueueing meanwhile) cut the queue by the quota each,
    in order, until it is empty; after [k] of them the first [k * N]
    items have been processed, the rest is still queued, the counter
    has grown by the number processed and no iteration has returned an
    error. *)
Theorem spaced_iterations_drain_the_queue limits T
    (envs : list (@Env Item)) g :
  0 < Number limits < Int64.half →
  returned g = false →
  (∀ ts c, processedItems (mem g) !! ts = Some c →
           Int64.in_range ts ∧ ts ≤ T) →
  spaced limits T envs →
  0 ≤ TotalProcessed (mem g) →
  TotalProcessed (mem g) + Z.of_nat (length (Queue (mem g))) < Int64.half →
  let k := (Z.to_nat (Number limits) * length envs)%nat in
  let rs := (run limits (Tick <$> envs) g).1 in
  let g' := (run limits (Tick <$> envs) g).2 in
  dequeued rs = take k (Queue (mem g)) ∧
  Queue (mem g') = drop k (Queue (mem g)) ∧
  TotalProcessed (mem g') =
    TotalProcessed (mem g) + Z.of_nat (length (take k (Queue (mem g)))) ∧
  Forall (λ r, err r = None) rs ∧
  returned g' = false.
Proof.
  intros HN. cbv zeta. revert g T.
  induction envs as [|env envs IH]; intros g T Hr Hkeys Hsp Htp Hfit.
  { cbn. rewrite Nat.mul_0_r. unfold dequeued. cbn. rewrite Z.add_0_r.
    repeat split; try done. }
  destruct Hsp as (He & Hl & Hx & Hold & HT & HinT & Hsp).
  rewrite fmap_cons, run_cons. cbn [fst snd length]. rewrite dequeued_cons.
  rewrite Nat.mul_succ_r, (Nat.add_comm _ (Z.to_nat _)).
  destruct (nil_or_not (Queue (mem g))) as [Hq|Hq].
  - assert (step limits (Tick env) g = (nothing, mkLoop (mem g) 0 false))
      as ->.
    { cbn [step]. rewrite Hr. unfold default_case.
      by rewrite (ProcessQueue_empty limits env (mem g) Hq). }
    cbn [fst snd removed app].
    destruct (IH (mkLoop (mem g) 0 false) (stamp env))
      as (H1 & H2 & H3 & H4 & H5); try done.
    { intros ts c Hts. destruct (Hkeys ts c Hts). split; [done|lia]. }
    cbn [mem] in *. rewrite H1, H2, H3, Hq, !take_nil, !drop_nil.
    repeat split; try done. by constructor.
  - pose proof (fresh_call limits env (mem g) T HN Hq Hkeys He Hl Hx Hold)
      as Hcall. cbv zeta in Hcall.
    assert (Int64.add (TotalProcessed (mem g))
              (Z.of_nat (length (take (Z.to_nat (Number limits))
                                   (Queue (mem g))))) =
            TotalProcessed (mem g) +
            Z.of_nat (length (take (Z.to_nat (Number limits))
                                (Queue (mem g))))) as Hadd.
    { unfold Int64.add. apply wrap_small. rewrite length_take.
      unfold Int64.in_range, Int64.half in *. lia. }
    rewrite Hadd in Hcall.
    cbn [step]. rewrite Hr. unfold default_case. rewrite Hcall.
    cbn [fst snd err removed].
    change (threshold <=? 0) with false.
    match goal with |- context [mkLoop ?st 0 false] =>
      destruct (IH (mkLoop st 0 false) (stamp env))
        as (H1 & H2 & H3 & H4 & H5) end; try done.
    { cbn [mem processedItems]. intros ts c Hts.
      apply lookup_singleton_Some in Hts as [<- _]. split; [done|lia]. }
    { cbn [mem TotalProcessed]. lia. }
    { cbn [mem TotalProcessed Queue]. rewrite length_take, length_drop. lia. }
    cbn [mem Queue TotalProcessed] in H1, H2, H3.
    rewrite H1, H2, H3, take_take_drop, drop_drop.
    rewrite <- (take_take_drop (Queue (mem g))), !length_app.
    repeat split; try done; [lia|by constructor].
Qed.

(** *** Failures within one window *)

(** What a run within one window keeps: the map is in order, its
    stamps are not later than [T], the error counter is covered by the
    counts of the map, and it has reached the threshold exactly when
    the goroutine has returned by itself. *)
Lemma one_window_step limits T0 T ev g :
  one_window limits T0 T [ev] → T0 ≤ T →
  tracker_ok limits (processedItems (mem g)) →
  (∀ ts c, processedItems (mem g) !! ts = Some c → T0 ≤ ts ≤ T) →
  0 ≤ errorsCount g ≤ total (processedItems (mem g)) →
  (threshold ≤ errorsCount g → returned g = true) →
  let g' := (step limits ev g).2 in
  let T' := match ev with Tick env => stamp env | _ => T end in
  T0 ≤ T' ∧
  (∀ ts c, processedItems (mem g') !! ts = Some c → T0 ≤ ts ≤ T') ∧
  0 ≤ errorsCount g' ≤ total (processedItems (mem g')) ∧
  (threshold ≤ errorsCount g' → returned g' = true) ∧
  (returned g' = true →
     returned g = true ∨ ev = Stop ∨ threshold ≤ errorsCount g').
Proof.
  intros Hwin HT0 Hok Hkeys Hec Hten. cbv zeta.
  destruct ev as [req| |env]; cbn [step].
  - split; [done|].
    destruct (HandleProcess req (mem g)) as [reply st'] eqn:Hh. cbn.
    assert (processedItems st' = processedItems (mem g)) as ->.
    { destruct req as [msg|Data]; cbn in Hh; [by simplify_eq|].
      destruct (Z.of_nat (length Data) =? 0); by simplify_eq. }
    repeat split; try done; try lia; try (by apply (Hkeys ts c)). by left.
  - split; [done|]. cbn. repeat split; try done; try lia;
      try (by apply (Hkeys ts c)). intros _. right. by left.
  - destruct Hwin as (HT & Hlive & Hmarshal & _). split; [lia|].
    assert (∀ ts c, processedItems (mem g) !! ts = Some c →
                    T0 ≤ ts ≤ stamp env)
      as Hkeys' by (intros ts c Hts; specialize (Hkeys ts c Hts); lia).
    destruct (returned g) eqn:Hr.
    { cbn. split; [exact Hkeys'|]. repeat split; try done; try lia; by left. }
    assert (0 ≤ errorsCount g < threshold) as Hlt.
    { destruct (Z.le_gt_cases threshold (errorsCount g)) as [Hge|Hgt];
        [specialize (Hten Hge); congruence|lia]. }
    destruct (default_case_errorsCount limits env g Hlt)
      as (Hrep & Hmem & Hec' & Hret).
    rewrite Hret, Hec', Hmem, Hrep.
    assert (surviving limits (seen env) (processedItems (mem g)) =
            processedItems (mem g)) as Hs.
    { unfold surviving. apply map_filter_id. intros ts c Hts. cbn.
      by apply Hlive, (Hkeys ts c). }
    assert (processedItems (mem g) !! stamp env = None) as Hfresh.
    { destruct (processedItems (mem g) !! stamp env) as [c|] eqn:Hk; [|done].
      specialize (Hkeys _ _ Hk). lia. }
    destruct Hok as [Hpos Htot]. pose proof (total_nonneg _ Hpos) as H0.
    destruct (nil_or_not (Queue (mem g))) as [Hq|Hq];
      [rewrite (ProcessQueue_empty limits env (mem g) Hq)|
       destruct (Z.le_gt_cases
                   (window limits (seen env) (processedItems (mem g))).2 0)
         as [Hw|Hw];
       [rewrite (ProcessQueue_exhausted limits env (mem g) Hq Hw)|
        destruct (ProcessQueue_attempt limits env (mem g) Hq Hw)
          as (Hn & Hlen & ->);
        destruct (exchange env _) as [| | | | |[[] ?]] eqn:Hx]].
    all: try (exfalso; by eapply Hmarshal).
    all: cbn [Success]; cbn [fst snd err nothing processedItems];
      rewrite ?Hs.
    all: rewrite ?total_insert_fresh by done.
    all: split; [intros ts c Hts;
                 try (apply lookup_insert_Some in Hts as [[<- _]|[_ Hts]];
                      [lia|]); by eauto|].
    all: split; [lia|].
    all: split; [by intros Hge%Z.leb_le|].
    all: intros Hge%Z.leb_le; right; right; lia.
Qed.

(** X14. Failed attempts eat the quota they fail on. Along a run
    within one window the error counter never exceeds the number of
    items the map counts, which never exceeds the quota; so with a
    quota below 10 the loop does not give up on errors, however many
    submissions fail: it returns only on a stop request. *)
Theorem failures_within_a_window_are_covered_by_the_map limits T0 T evs :
  0 ≤ Number limits → T0 ≤ T →
  one_window limits T0 T evs →
  let g := (run limits evs start).2 in
  0 ≤ errorsCount g ≤ total (processedItems (mem g)) ∧
  total (processedItems (mem g)) ≤ Number limits ∧
  (Number limits < threshold → returned g = true → Stop ∈ evs).
Proof.
  intros HN HT0 Hwin. cbv zeta.
  assert (∀ T g0,
    one_window limits T0 T evs → T0 ≤ T →
    tracker_ok limits (processedItems (mem g0)) →
    (∀ ts c, processedItems (mem g0) !! ts = Some c → T0 ≤ ts ≤ T) →
    0 ≤ errorsCount g0 ≤ total (processedItems (mem g0)) →
    (threshold ≤ errorsCount g0 → returned g0 = true) →
    0 ≤ errorsCount (run limits evs g0).2
      ≤ total (processedItems (mem (run limits evs g0).2)) ∧
    (returned (run limits evs g0).2 = true →
       returned g0 = true ∨ Stop ∈ evs ∨
       threshold ≤ errorsCount (run limits evs g0).2)) as Hgen.
  { clear T HT0 Hwin. induction evs as [|ev evs IH];
      intros T g0 Hwin HT0 Hok Hkeys Hec Hten.
    { cbn. split; [done|]. by left. }
    rewrite run_cons. cbn [snd].
    assert (one_window limits T0 T [ev] ∧
            one_window limits T0
              (match ev with Tick env => stamp env | _ => T end) evs)
      as [Hone Hrest].
    { destruct ev as [req| |env]; cbn in Hwin |- *; [done|done|].
      by destruct Hwin as (? & ? & ? & ?). }
    destruct (one_window_step limits T0 T ev g0 Hone HT0 Hok Hkeys Hec Hten)
      as (HT1 & Hkeys1 & Hec1 & Hten1 & Hret1).
    destruct (IH _ _ Hrest HT1 (step_tracker_ok limits ev g0 Hok)
                Hkeys1 Hec1 Hten1) as (Hec2 & Hret2).
    split; [done|]. intros Hr. destruct (Hret2 Hr) as [Hr1|[Hstop|Hge]].
    - destruct (Hret1 Hr1) as [?|[->|Hge]]; [by left|right; left; left|].
      right. right. by rewrite run_frozen_errorsCount.
    - right. left. by right.
    - by right; right. }
  destruct (Hgen T start Hwin HT0) as (Hec & Hret).
  { cbn [start mem processedItems]. split; [apply map_Forall_empty|].
    rewrite total_empty. lia. }
  { cbn [start mem processedItems]. by intros ts c ?%lookup_empty_Some. }
  { cbn [start mem processedItems errorsCount]. rewrite total_empty. lia. }
  { cbn [start errorsCount]. unfold threshold. lia. }
  destruct (run_tracker_ok limits evs start) as [_ Htot].
  { cbn [start mem processedItems]. split; [apply map_Forall_empty|].
    rewrite total_empty. lia. }
  pose proof (wrap_le_nonneg _ HN).
  split; [done|]. split; [lia|]. intros Hsmall Hr.
  destruct (Hret Hr) as [?|[?|?]]; [done|done|lia].
Qed.

End Further.

(** ** The further properties on concrete inputs *)

(** X1 on three queued items and a server that is down. *)
Lemma submitted_batch_is_nonempty_head_witness :
  let st := mkState Sample.three 0 ∅ in
  let env := Sample.at_second 1 (λ _, DoFails) in
  sent (ProcessQueue Sample.limits env st).1 = Some Sample.three ∧
  Sample.three ≠ [] ∧
  Z.of_nat (length Sample.three) ≤ (window Sample.limits (seen env) ∅).2.
Proof.
  assert (sent (ProcessQueue Sample.limits
                  (Sample.at_second 1 (λ _, DoFails))
                  (mkState Sample.three 0 ∅)).1 = Some Sample.three) as Hs
    by (by vm_compute).
  split; [exact Hs|].
  destruct (submitted_batch_is_nonempty_head _ _ _ _ Hs) as (H1 & _ & _ & H4).
  split; [exact H1|exact H4].
Defined.

(** X2 after the run of [Sample.stubborn]. *)
Lemma window_map_is_bounded_witness :
  let g := (run Sample.limits Sample.stubborn start).2 in
  0 ≤ Number Sample.limits ∧ reachable Sample.limits g ∧
  Z.of_nat (size (processedItems (mem g))) ≤ 10.
Proof.
  assert (0 ≤ Number Sample.limits) as HN by (by vm_compute).
  assert (reachable Sample.limits
            (run Sample.limits Sample.stubborn start).2) as Hr
    by (by eexists).
  split; [exact HN|]. split; [exact Hr|].
  exact (proj1 (window_map_is_bounded Sample.limits _ HN Hr)).
Defined.

(** X3 on a map pruned at second 1 and read at second 20. *)
Lemma earlier_pruning_does_not_show_witness :
  let env := Sample.at_second 20 (λ _, DoFails) in
  let now := λ _ : Z, 1 * Sample.second in
  (∀ ts, now ts ≤ seen env ts) ∧
  (ProcessQueue Sample.limits env
     (mkState Sample.three 0 (surviving Sample.limits now More.one_entry))).1
  = (ProcessQueue Sample.limits env More.busy).1.
Proof.
  assert (∀ ts : Z, 1 * Sample.second
                    ≤ seen (Sample.at_second 20 (λ _, DoFails)) ts) as Hle
    by (intros ts; by vm_compute).
  split; [exact Hle|].
  exact (proj1 (earlier_pruning_does_not_show Sample.limits
                  (Sample.at_second 20 (λ _, DoFails))
                  (λ _, 1 * Sample.second) More.busy Hle)).
Defined.

(** X4 on the same map, read at second 1 and at second 20. *)
Lemma waiting_never_reduces_limit_witness :
  let now := λ _ : Z, 1 * Sample.second in
  let later := λ _ : Z, 20 * Sample.second in
  tracker_ok Sample.limits More.one_entry ∧ (∀ ts, now ts ≤ later ts) ∧
  (window Sample.limits now More.one_entry).2
    ≤ (window Sample.limits later More.one_entry).2.
Proof.
  assert (tracker_ok Sample.limits More.one_entry) as Hok.
  { split; [|by vm_compute]. intros ts c Hts. unfold More.one_entry in Hts.
    apply lookup_singleton_Some in Hts as [_ <-]. done. }
  assert (∀ ts : Z, 1 * Sample.second ≤ 20 * Sample.second) as Hle
    by (intros _; by vm_compute).
  split; [exact Hok|]. split; [exact Hle|].
  exact (proj2 (waiting_never_reduces_limit Sample.limits
                  (λ _, 1 * Sample.second) (λ _, 20 * Sample.second)
                  More.one_entry Hok Hle)).
Defined.

(** X5 on a failed submission: the entry found afterwards is the one
    the call wrote. *)
Lemma map_changes_only_by_ageing_and_writing_witness :
  let call := ProcessQueue Sample.limits
                (Sample.at_second 1 (λ _, DoFails))
                (mkState Sample.three 0 ∅) in
  processedItems call.2 !! (1 * Sample.second) = Some 3 ∧
  (wrote call.1 = Some (1 * Sample.second, 3) ∨
   (∅ : gmap Z Z) !! (1 * Sample.second) = Some 3).
Proof.
  assert (processedItems
            (ProcessQueue Sample.limits (Sample.at_second 1 (λ _, DoFails))
               (mkState Sample.three 0 ∅)).2 !! (1 * Sample.second)
          = Some 3) as Hin by (by vm_compute).
  split; [exact Hin|].
  exact (proj1 (map_changes_only_by_ageing_and_writing Sample.limits
                  (Sample.at_second 1 (λ _, DoFails))
                  (mkState Sample.three 0 ∅)) _ _ Hin).
Defined.

(** X6 on an iteration that reads the stamp of the entry already in
    the map: five items were counted, three are after the write. *)
Lemma equal_stamp_is_overwritten_witness :
  let env := Sample.at_second 1 (λ _, DoFails) in
  let call := ProcessQueue Sample.limits env More.busy in
  wrote call.1 = Some (1 * Sample.second, 3) ∧
  processedItems call.2 !! (1 * Sample.second) = Some 3 ∧
  total (processedItems call.2) =
    total (surviving Sample.limits (seen env) More.one_entry) + 3
    - default 0 (surviving Sample.limits (seen env) More.one_entry
                   !! (1 * Sample.second)).
Proof.
  assert (wrote (ProcessQueue Sample.limits
                   (Sample.at_second 1 (λ _, DoFails)) More.busy).1
          = Some (1 * Sample.second, 3)) as Hw by (by vm_compute).
  split; [exact Hw|].
  destruct (equal_stamp_is_overwritten _ _ _ _ _ Hw) as (_ & H2 & H3).
  split; [exact H2|exact H3].
Defined.

(** X7 on five items and two iterations. *)
Lemma mock_server_never_blocks_witness :
  served 10 More.served_run ∧
  errorsCount
    (run (MockLimits.HandleGetLimits 10 MockLimits.Duration) More.served_run
       (@RunProcess unit
          (Fetched (MockLimits.HandleGetLimits 10 MockLimits.Duration))).2).2
  = 0.
Proof.
  assert (served 10 More.served_run) as Hs by (repeat constructor).
  split; [exact Hs|].
  destruct (mock_server_never_blocks 10 MockLimits.Duration
              More.served_run Hs) as (_ & _ & _ & _ & Hec & _).
  exact Hec.
Defined.

(** X8 on the mock server's limit of 10 and a batch of five. *)
Lemma mock_Process_blocks_long_batches_witness :
  0 ≤ 10 < Int64.half ∧
  (MockServer.Process 10 Sample.five = None
   ↔ Z.of_nat (length Sample.five) ≤ 10).
Proof.
  assert (0 ≤ 10 < Int64.half) as HN by (by vm_compute).
  split; [exact HN|].
  exact (proj1 (mock_Process_blocks_long_batches 10 Sample.five) HN).
Defined.

(** X9 when the request for the limits fails in transport: what is
    enqueued stays queued. *)
Lemma without_goroutine_nothing_is_processed_witness :
  let g := (run Sample.limits Sample.short
              (@RunProcess unit FetchDoFails).2).2 in
  (∀ fetched, FetchDoFails ≠ Fetched fetched) ∧
  Queue (mem g) = enqueued (run Sample.limits Sample.short
                              (@RunProcess unit FetchDoFails).2).1 ∧
  TotalProcessed (mem g) = 0 ∧ HandleStop g = None.
Proof.
  assert (∀ fetched, FetchDoFails ≠ Fetched fetched) as Hf
    by (intros fetched; discriminate).
  split; [exact Hf|].
  destruct (proj2 (without_goroutine_nothing_is_processed Sample.limits
                     Sample.short) FetchDoFails Hf) as (_ & H2 & H3 & _ & H5).
  split; [exact H2|]. split; [exact H3|exact H5].
Defined.

(** X10 on a live loop: the first stop is answered, a second is not. *)
Lemma stop_is_answered_while_the_loop_lives_witness :
  let g := (run Sample.limits Sample.short start).2 in
  returned g = false ∧
  HandleStop g = Some (StatusOK, (step Sample.limits Stop g).2) ∧
  HandleStop (step Sample.limits Stop g).2 = None.
Proof.
  assert (returned (run Sample.limits Sample.short start).2 = false) as Hr
    by (by vm_compute).
  split; [exact Hr|].
  destruct (proj1 (stop_is_answered_while_the_loop_lives Sample.limits _) Hr)
    as (H1 & _ & H3).
  split; [exact H1|exact (H3 [])].
Defined.

(** X11 after five items and two iterations against the mock server. *)
Lemma total_and_queue_account_for_accepted_witness :
  let res := run Sample.limits More.served_run start in
  Z.of_nat (length (enqueued res.1)) < Int64.half ∧
  (HandleTotalProcessed (mem res.2)).2
    + Z.of_nat (length (Queue (mem res.2)))
  = Z.of_nat (length (enqueued res.1)).
Proof.
  assert (Z.of_nat (length (enqueued
            (run Sample.limits More.served_run start).1)) < Int64.half)
    as Hfew by (by vm_compute).
  split; [exact Hfew|].
  destruct (total_and_queue_account_for_accepted Sample.limits
              More.served_run Hfew) as (_ & H2 & _).
  exact H2.
Defined.

(** X12 after the run of [Sample.stubborn]. *)
Lemma errorsCount_stays_within_threshold_witness :
  let g := (run Sample.limits Sample.stubborn start).2 in
  0 ≤ errorsCount g ≤ threshold.
Proof.
  exact (proj1 (errorsCount_stays_within_threshold Sample.limits
                  Sample.stubborn)).
Defined.

(** X13 on 25 items and three iterations sixteen seconds apart: the
    queue is empty and the counter at 25. *)
Lemma spaced_iterations_drain_the_queue_witness :
  let g := mkLoop (mkState More.queue25 0 ∅) 0 false in
  let g' := (run Sample.limits (Tick <$> More.drain) g).2 in
  0 < Number Sample.limits < Int64.half ∧
  spaced Sample.limits 0 More.drain ∧
  Queue (mem g') = drop 30 More.queue25 ∧
  TotalProcessed (mem g') = 0 + Z.of_nat (length (take 30 More.queue25)).
Proof.
  assert (0 < Number Sample.limits < Int64.half) as HN by (by vm_compute).
  assert (∀ t T : Z, T + 15 * Sample.second < t * Sample.second →
            T < Int64.half - 15 * Sample.second →
            ∀ ts, Int64.in_range ts → ts ≤ T →
              Int64.add ts (Duration Sample.limits) < t * Sample.second)
    as Hold.
  { intros t T Ht HT ts Hts HtsT. unfold Int64.add.
    rewrite wrap_small; cbn [Sample.limits Duration];
      unfold Int64.in_range, Int64.half, Sample.second in *; lia. }
  assert (spaced Sample.limits 0 More.drain) as Hsp.
  { cbn [spaced More.drain Sample.at_second early late exchange seen stamp].
    split; [reflexivity|]. split; [reflexivity|]. split; [reflexivity|].
    split; [apply (Hold 16 0); by vm_compute|].
    split; [by vm_compute|]. split; [by vm_compute|].
    split; [reflexivity|]. split; [reflexivity|]. split; [reflexivity|].
    split; [apply (Hold 32 (16 * Sample.second)); by vm_compute|].
    split; [by vm_compute|]. split; [by vm_compute|].
    split; [reflexivity|]. split; [reflexivity|]. split; [reflexivity|].
    split; [apply (Hold 48 (32 * Sample.second)); by vm_compute|].
    split; [by vm_compute|]. split; [by vm_compute|]. exact I. }
  split; [exact HN|]. split; [exact Hsp|].
  destruct (spaced_iterations_drain_the_queue Sample.limits 0 More.drain
              (mkLoop (mkState More.queue25 0 ∅) 0 false) HN eq_refl)
    as (_ & H2 & H3 & _).
  - cbn [mem processedItems]. by intros ts c ?%lookup_empty_Some.
  - exact Hsp.
  - by vm_compute.
  - by vm_compute.
  - split; [exact H2|exact H3].
Defined.

(** X14 on the failed attempts of [Sample.short], all within a window
    that opens at second 0. *)
Lemma failures_within_a_window_are_covered_by_the_map_witness :
  let g := (run Sample.limits Sample.short start).2 in
  0 ≤ Number Sample.limits ∧ one_window Sample.limits 0 0 Sample.short ∧
  0 ≤ errorsCount g ≤ total (processedItems (mem g)) ∧
  total (processedItems (mem g)) ≤ 10.
Proof.
  assert (0 ≤ Number Sample.limits) as HN by (by vm_compute).
  assert (∀ t T : Z, T < 15 * Sample.second → 0 ≤ t ≤ 15 →
            ∀ ts, 0 ≤ ts ≤ T →
              ¬ Int64.add ts (Duration Sample.limits) < t * Sample.second)
    as Hlive.
  { intros t T HT Ht ts Hts. unfold Int64.add.
    rewrite wrap_small; cbn [Sample.limits Duration];
      unfold Int64.in_range, Int64.half, Sample.second in *; lia. }
  assert (one_window Sample.limits 0 0 Sample.short) as Hwin.
  { cbn [one_window Sample.short Sample.down Sample.at_second
         exchange seen stamp].
    split; [by vm_compute|]. split; [apply (Hlive 1 0); [by vm_compute|lia]|].
    split; [intros batch; discriminate|].
    split; [by vm_compute|].
    split; [apply (Hlive 2 (1 * Sample.second)); [by vm_compute|lia]|].
    split; [intros batch; discriminate|].
    split; [by vm_compute|].
    split; [apply (Hlive 3 (2 * Sample.second)); [by vm_compute|lia]|].
    split; [intros batch; discriminate|].
    split; [by vm_compute|].
    split; [apply (Hlive 4 (3 * Sample.second)); [by vm_compute|lia]|].
    split; [intros batch; discriminate|].
    split; [by vm_compute|].
    split; [apply (Hlive 5 (4 * Sample.second)); [by vm_compute|lia]|].
    split; [intros batch; discriminate|]. exact I. }
  split; [exact HN|]. split; [exact Hwin|].
  destruct (failures_within_a_window_are_covered_by_the_map Sample.limits
              0 0 Sample.short HN (Z.le_refl 0) Hwin) as (H1 & H2 & _).
  split; [exact H1|exact H2].
Defined.
